(** * Modern Family co-appearance analysis: a shallow embedding

    The development follows the two Python modules of the repository:

    - [episodes.py]: the line-by-line transcript segmenter
      ([extract_episodes_from_text]);
    - [Networks.py]: the graph engine built on [networkx]
      ([load_data], [top_connected_characters], [top_strongest_pairs],
      [shortest_path], [get_family], [character_stats]).

    Python values are modelled as follows.  A [str] is a [string]; its
    characters are the code points below 256, on which [str.isspace] and the
    regular-expression classes [\s] and [\d] are given by [isspace] and
    [isdigit].  A [dict] is an association list in insertion order with
    unique keys.  An [int] is a [Z].  A call either returns a value or raises
    an exception ([outcome]). *)

From Stdlib Require Import List String Ascii ZArith Lia Bool Arith Permutation Sorted.
Import ListNotations.
Open Scope string_scope.
Open Scope list_scope.

(** ** Outcomes of a Python call *)

Inductive exn : Type :=
| KeyError
| ValueError
| NodeNotFound
| NetworkXNoPath.

Inductive outcome (A : Type) : Type :=
| Returned (a : A)
| Raised (e : exn)
| NoFuel.

Arguments Returned {A} a.
Arguments Raised {A} e.
Arguments NoFuel {A}.

Definition bind {A B : Type} (m : outcome A) (k : A -> outcome B) : outcome B :=
  match m with
  | Returned a => k a
  | Raised e => Raised e
  | NoFuel => NoFuel
  end.

Notation "x <- m ;; k" := (bind m (fun x => k))
  (at level 61, m at next level, right associativity).

(** ** Insertion-ordered dictionaries *)

Section Dict.
Context {V : Type}.

Definition dict : Type := list (string * V).

Definition keys (d : dict) : list string := map fst d.

Fixpoint get (d : dict) (k : string) : option V :=
  match d with
  | [] => None
  | (k', v) :: r => if String.eqb k' k then Some v else get r k
  end.

Definition mem (d : dict) (k : string) : bool :=
  match get d k with Some _ => true | None => false end.

(** [d[k] = v]: an existing key keeps its position, a new key goes last. *)
Fixpoint set (d : dict) (k : string) (v : V) : dict :=
  match d with
  | [] => [(k, v)]
  | (k', v') :: r =>
      if String.eqb k' k then (k', v) :: r else (k', v') :: set r k v
  end.
End Dict.

Arguments dict V : clear implicits.

(** ** Python string operations *)

Definition isspace (c : ascii) : bool :=
  let n := nat_of_ascii c in
  (Nat.leb 9 n && Nat.leb n 13) || (Nat.leb 28 n && Nat.leb n 32)
  || Nat.eqb n 133 || Nat.eqb n 160.

Definition isdigit (c : ascii) : bool :=
  let n := nat_of_ascii c in Nat.leb 48 n && Nat.leb n 57.

Definition newline : ascii := ascii_of_nat 10.

Fixpoint lstrip (s : string) : string :=
  match s with
  | EmptyString => EmptyString
  | String c r => if isspace c then lstrip r else s
  end.

Fixpoint rstrip (s : string) : string :=
  match s with
  | EmptyString => EmptyString
  | String c r =>
      match rstrip r with
      | EmptyString => if isspace c then EmptyString else String c EmptyString
      | r' => String c r'
      end
  end.

(** [s.strip()] *)
Definition strip (s : string) : string := rstrip (lstrip s).

(** [s.startswith(p)] *)
Fixpoint startswith (s p : string) : bool :=
  match p with
  | EmptyString => true
  | String a p' =>
      match s with
      | EmptyString => false
      | String b s' => Ascii.eqb a b && startswith s' p'
      end
  end.

(** [sub in s] *)
Fixpoint contains (sub s : string) : bool :=
  startswith s sub
  || match s with
     | EmptyString => false
     | String _ r => contains sub r
     end.

(** [s.split(sep)] for a one-character separator. *)
Fixpoint str_split (sep : ascii) (s : string) : list string :=
  match s with
  | EmptyString => [EmptyString]
  | String c r =>
      if Ascii.eqb c sep then EmptyString :: str_split sep r
      else match str_split sep r with
           | [] => [String c EmptyString]
           | l :: ls => String c l :: ls
           end
  end.

(** [sep.join(ls)] *)
Definition join (sep : string) (ls : list string) : string :=
  String.concat sep ls.

Fixpoint zeros (n : nat) : string :=
  match n with
  | O => EmptyString
  | S m => String "0"%char (zeros m)
  end.

(** [s.zfill(width)]: a leading sign stays in front of the padding. *)
Definition zfill (s : string) (width : nat) : string :=
  let fill := zeros (width - String.length s) in
  match s with
  | String c r =>
      if Ascii.eqb c "+"%char || Ascii.eqb c "-"%char
      then String c (fill ++ r)%string
      else (fill ++ s)%string
  | EmptyString => fill
  end.

(** The longest prefix of [s] whose characters satisfy [p], and the rest. *)
Fixpoint span (p : ascii -> bool) (s : string) : string * string :=
  match s with
  | EmptyString => (EmptyString, EmptyString)
  | String c r =>
      if p c then let (a, b) := span p r in (String c a, b)
      else (EmptyString, s)
  end.

Definition is_empty (s : string) : bool :=
  match s with EmptyString => true | _ => false end.

(** Every character of [s] satisfies [p]. *)
Fixpoint all_chars (p : ascii -> bool) (s : string) : bool :=
  match s with
  | EmptyString => true
  | String c r => p c && all_chars p r
  end.

(** [s] is not empty and its first character satisfies [p]. *)
Definition head_sat (p : ascii -> bool) (s : string) : bool :=
  match s with
  | EmptyString => false
  | String c _ => p c
  end.

(** * episodes.py *)

Module episodes.

(** [episode_pattern.match(line)], where [episode_pattern] is the compiled
    regular expression of the source: a group of one or more [\d], the
    letter [x], a group of one or more [\d], any number of [\s], and a group
    of any number of [.]; the result is [match.groups()].  Every quantifier
    is greedy and no shorter choice can make the rest match, so the groups
    are found in one left-to-right pass; [.] stops at a newline. *)
Definition episode_pattern_match (line : string)
  : option (string * string * string) :=
  let (season, r1) := span isdigit line in
  if is_empty season then None
  else match r1 with
       | String "x"%char r2 =>
           let (episode_num, r3) := span isdigit r2 in
           if is_empty episode_num then None
           else
             let (_, r4) := span isspace r3 in
             let (title, _) := span (fun c => negb (Ascii.eqb c newline)) r4 in
             Some (season, episode_num, title)
       | _ => None
       end.

(** A value of [episodes]: [{'title': ..., 'scenes': [...]}]. *)
Record episode_rec : Type := {
  title : string;
  scenes : list string
}.

(** An element of [scenes_with_episodes]. *)
Record scene_rec : Type := {
  episode : string;
  scene_title : option string;
  scene : string
}.

(** The local variables of [extract_episodes_from_text]. *)
Record state : Type := {
  episodes : dict episode_rec;
  scenes_with_episodes : list scene_rec;
  current_episode : option string;
  current_episode_title : option string;
  scene_buffer : list string;
  in_scene : bool
}.

Definition init : state :=
  {| episodes := [];
     scenes_with_episodes := [];
     current_episode := None;
     current_episode_title := None;
     scene_buffer := [];
     in_scene := false |}.

(** [line.startswith('===') and 'Scene' in line] *)
Definition is_scene_start (line : string) : bool :=
  startswith line "===" && contains "Scene" line.

(** [line.startswith('---')] *)
Definition is_scene_end (line : string) : bool := startswith line "---".

(** Truth value of [current_episode]: neither [None] nor the empty string. *)
Definition active (ce : option string) : option string :=
  match ce with
  | Some e => if is_empty e then None else Some e
  | None => None
  end.

(** The body of [if scene_buffer and current_episode:].  [episodes] is a
    [defaultdict(dict)]: looking up a missing identifier yields an empty
    record, whose ['scenes'] lookup raises [KeyError]. *)
Definition commit (st : state) (e : string) : outcome state :=
  let scene_content := join (String newline EmptyString) (scene_buffer st) in
  match get (episodes st) e with
  | None => Raised KeyError
  | Some r =>
      Returned
        {| episodes :=
             set (episodes st) e
                 {| title := title r; scenes := scenes r ++ [scene_content] |};
           scenes_with_episodes :=
             scenes_with_episodes st
             ++ [{| episode := e;
                    scene_title := current_episode_title st;
                    scene := scene_content |}];
           current_episode := current_episode st;
           current_episode_title := current_episode_title st;
           scene_buffer := scene_buffer st;
           in_scene := false |}
  end.

(** One iteration of [for line in lines:]. *)
Definition step (st : state) (raw : string) : outcome state :=
  let line := strip raw in
  if is_scene_start line then
    Returned
      {| episodes := episodes st;
         scenes_with_episodes := scenes_with_episodes st;
         current_episode := current_episode st;
         current_episode_title := current_episode_title st;
         scene_buffer := [line];
         in_scene := true |}
  else if in_scene st && is_scene_end line then
    match scene_buffer st, active (current_episode st) with
    | _ :: _, Some e => commit st e
    | _, _ =>
        Returned
          {| episodes := episodes st;
             scenes_with_episodes := scenes_with_episodes st;
             current_episode := current_episode st;
             current_episode_title := current_episode_title st;
             scene_buffer := scene_buffer st;
             in_scene := false |}
    end
  else if in_scene st then
    let buffer := scene_buffer st ++ [line] in
    match episode_pattern_match line with
    | Some (season, episode_num, title) =>
        let episode_code :=
          ("S" ++ season ++ "E" ++ zfill episode_num 2)%string in
        Returned
          {| episodes :=
               if mem (episodes st) episode_code then episodes st
               else set (episodes st) episode_code
                        {| title := strip title; scenes := [] |};
             scenes_with_episodes := scenes_with_episodes st;
             current_episode := Some episode_code;
             current_episode_title := Some (strip title);
             scene_buffer := buffer;
             in_scene := true |}
    | None =>
        Returned
          {| episodes := episodes st;
             scenes_with_episodes := scenes_with_episodes st;
             current_episode := current_episode st;
             current_episode_title := current_episode_title st;
             scene_buffer := buffer;
             in_scene := true |}
    end
  else Returned st.

(** The loop over [lines]. *)
Fixpoint run (st : state) (lines : list string) : outcome state :=
  match lines with
  | [] => Returned st
  | l :: ls => st' <- step st l ;; run st' ls
  end.

Definition extract_episodes_from_text (text_data : string)
  : outcome (dict episode_rec * list scene_rec) :=
  st <- run init (str_split newline text_data) ;;
  Returned (episodes st, scenes_with_episodes st).

(** ** Notions used to state the segmenter's properties *)

Definition nl : string := String newline EmptyString.

Definition not_newline (c : ascii) : bool := negb (Ascii.eqb c newline).

(** What the episode pattern accepts, in the words of its description: a
    non-empty run of digits, the letter x, a non-empty run of digits taken
    as long as possible, the white space after it, and the rest of the
    line. *)
Definition episode_line (line season episode_num title : string) : Prop :=
  exists ws rest : string,
    line = (season ++ "x" ++ episode_num ++ ws ++ title ++ rest)%string
    /\ is_empty season = false /\ all_chars isdigit season = true
    /\ is_empty episode_num = false /\ all_chars isdigit episode_num = true
    /\ head_sat isdigit (ws ++ title ++ rest)%string = false
    /\ all_chars isspace ws = true
    /\ head_sat isspace (title ++ rest)%string = false
    /\ all_chars not_newline title = true
    /\ head_sat not_newline rest = false.

(** The identifier [S<season>E<episode>], the episode digits padded with
    zeros on the left to width 2. *)
Definition episode_id (season episode_num : string) : string :=
  ("S" ++ season ++ "E"
       ++ zeros (2 - String.length episode_num) ++ episode_num)%string.

(** The episode headers met while scanning, in order, each with its
    identifier and its trimmed title: the lines inside a scene that are
    neither a scene start nor a scene end and that the pattern accepts. *)
Fixpoint declarations (inside : bool) (lines : list string)
  : list (string * string) :=
  match lines with
  | [] => []
  | raw :: r =>
      let line := strip raw in
      if is_scene_start line then declarations true r
      else if inside && is_scene_end line then declarations false r
      else if inside then
        match episode_pattern_match line with
        | Some (season, episode_num, title) =>
            (episode_id season episode_num, strip title)
              :: declarations true r
        | None => declarations true r
        end
      else declarations false r
  end.

(** [text] is the text of the scene block [block] of [lines]: the block
    starts with a scene-start line, holds no other start line and no end
    line, and is followed by an end line; [render] says how the lines of
    the block are put into the text. *)
Definition scene_of_block (render : list string -> string)
    (lines : list string) (text : string) : Prop :=
  exists (pre block : list string) (close : string) (post : list string),
    lines = pre ++ block ++ close :: post
    /\ is_scene_start (strip (hd EmptyString block)) = true
    /\ Forall (fun l => is_scene_start (strip l) = false
                         /\ is_scene_end (strip l) = false) (tl block)
    /\ is_scene_end (strip close) = true
    /\ text = render block.

(** The lines as they are in the input, joined by newlines. *)
Definition verbatim (block : list string) : string := join nl block.

(** The lines with the white space at both ends removed, joined by
    newlines. *)
Definition trimmed (block : list string) : string :=
  join nl (map strip block).

(** The state with another scene buffer. *)
Definition with_buffer (st : state) (buffer : list string) : state :=
  {| episodes := episodes st;
     scenes_with_episodes := scenes_with_episodes st;
     current_episode := current_episode st;
     current_episode_title := current_episode_title st;
     scene_buffer := buffer;
     in_scene := in_scene st |}.

(** What [extract_episodes_from_text] returns from a final state. *)
Definition output (st : state) : dict episode_rec * list scene_rec :=
  (episodes st, scenes_with_episodes st).

Definition outputs (o : outcome state)
  : outcome (dict episode_rec * list scene_rec) :=
  st <- o ;; Returned (output st).

(** What holds of the variables at the top of every iteration: inside a
    scene the buffer holds at least the start line, and the active episode
    is a non-empty identifier with a record in [episodes]. *)
Definition inv (st : state) : Prop :=
  (in_scene st = true -> scene_buffer st <> [])
  /\ (forall e, current_episode st = Some e ->
                is_empty e = false /\ mem (episodes st) e = true).

(** The scene block being read after the lines [done]: it ends [done],
    starts with a scene-start line and holds no other start line and no end
    line; the buffer holds its lines, trimmed. *)
Definition open_block (done : list string) (st : state) : Prop :=
  exists pre block : list string,
    done = pre ++ block
    /\ is_scene_start (strip (hd EmptyString block)) = true
    /\ Forall (fun l => is_scene_start (strip l) = false
                         /\ is_scene_end (strip l) = false) (tl block)
    /\ scene_buffer st = map strip block.

(** The title stored for an identifier, then the headers still to come. *)
Definition title_or (now : option string) (later : option string)
  : option string :=
  match now with Some t => Some t | None => later end.

(** What holds after the lines [done]: the loop invariant, the scene being
    read if any, and every committed scene text is that of a block of
    [done]. *)
Definition scenes_from_blocks (done : list string) (st : state) : Prop :=
  inv st
  /\ (in_scene st = true -> open_block done st)
  /\ (forall rec, In rec (scenes_with_episodes st) ->
        scene_of_block trimmed done (scene rec))
  /\ (forall id r s, get (episodes st) id = Some r -> In s (scenes r) ->
        scene_of_block trimmed done s).

(** ** Sample inputs *)

(** The state after the single line [=== Scene 1 ===]. *)
Definition after_scene_start : state :=
  {| episodes := [];
     scenes_with_episodes := [];
     current_episode := None;
     current_episode_title := None;
     scene_buffer := ["=== Scene 1 ==="];
     in_scene := true |}.

(** A transcript whose scene-start line is indented. *)
Definition indented_transcript : string :=
  ("  === Scene 1 ===" ++ nl ++ "1x02 The Bicycle Thief" ++ nl ++ "---")%string.

(** ** Notions used for further properties of the segmenter *)

(** The scene texts that the flat list holds for the episode [id], in
    order. *)
Definition scenes_of (id : string) (flat : list scene_rec) : list string :=
  map scene (filter (fun rec => String.eqb (episode rec) id) flat).

(** The number of scene texts in the scene lists of the mapping. *)
Definition scene_count (eps : dict episode_rec) : nat :=
  list_sum (map (fun entry => List.length (scenes (snd entry))) eps).

(** No line of [text], once trimmed, satisfies [p]. *)
Definition no_line (p : string -> bool) (text : string) : bool :=
  forallb (fun l => negb (p (strip l))) (str_split newline text).

(** The two results agree at every point of the scan: the flat list read
    episode by episode gives the scene lists, its records have a title, and
    an active episode has a current title. *)
Definition linked (st : state) : Prop :=
  inv st
  /\ (forall id,
        scenes_of id (scenes_with_episodes st)
        = match get (episodes st) id with
          | Some r => scenes r
          | None => []
          end)
  /\ (forall rec, In rec (scenes_with_episodes st) ->
        exists t, scene_title rec = Some t)
  /\ (forall e, current_episode st = Some e ->
        exists t, current_episode_title st = Some t)
  /\ scene_count (episodes st) = List.length (scenes_with_episodes st).

(** The identifiers of [ids] that are not in [seen], in the order of their
    first occurrence, put after those of [seen]. *)
Fixpoint first_seen (seen ids : list string) : list string :=
  match ids with
  | [] => seen
  | id :: r =>
      if existsb (String.eqb id) seen then first_seen seen r
      else first_seen (seen ++ [id]) r
  end.

(** A transcript with a closed scene, and a tail that opens a scene and
    never closes it. *)
Definition closed_transcript : string :=
  ("=== Scene 1 ===" ++ nl ++ "1x01 Pilot" ++ nl ++ "Hello." ++ nl ++ "---")%string.

Definition open_tail : string :=
  ("=== Scene 2 ===" ++ nl ++ "1x02 The Bicycle Thief" ++ nl ++ "Bye.")%string.

(** A transcript with a header and a close marker but no scene start. *)
Definition headers_only : string :=
  ("1x01 Pilot" ++ nl ++ "---" ++ nl ++ "Scene without marker")%string.

(** The episode pattern matches at the start of [line]. *)
Definition is_header (line : string) : bool :=
  match episode_pattern_match line with
  | Some _ => true
  | None => false
  end.

(** A transcript with a complete scene and no episode header. *)
Definition scene_without_header : string :=
  ("=== Scene 1 ===" ++ nl ++ "Hello." ++ nl ++ "---")%string.

End episodes.

(** * Python list operations used by Networks.py *)

(** [l[:n]]: a negative [n] counts from the end of the list. *)
Definition slice_to {A : Type} (l : list A) (n : Z) : list A :=
  if (n <? 0)%Z then firstn (Z.to_nat (Z.of_nat (List.length l) + n)) l
  else firstn (Z.to_nat n) l.

(** [sorted(l, key=key, reverse=True)].  Python's sort is stable, also with
    [reverse=True]: items with equal keys keep their order.  The result of a
    stable sort does not depend on the algorithm; insertion sort is used. *)
Fixpoint insert_desc {A : Type} (key : A -> Z) (x : A) (l : list A) : list A :=
  match l with
  | [] => [x]
  | y :: r => if (key x <? key y)%Z then y :: insert_desc key x r
              else x :: y :: r
  end.

Definition sorted_desc {A : Type} (key : A -> Z) (l : list A) : list A :=
  fold_right (insert_desc key) [] l.

(** Non-increasing keys, the order [sorted(..., reverse=True)] produces. *)
Definition desc {A : Type} (key : A -> Z) (a b : A) : Prop :=
  (key b <= key a)%Z.

(** [max(l, key=key)]: the first item with the largest key; an empty
    argument raises [ValueError]. *)
Definition py_max {A : Type} (key : A -> Z) (l : list A) : outcome A :=
  match l with
  | [] => Raised ValueError
  | x :: r =>
      Returned (fold_left (fun best y => if (key best <? key y)%Z then y else best)
                          r x)
  end.

(** [sum(l)] *)
Definition py_sum (l : list Z) : Z := fold_left Z.add l 0%Z.

(** An unordered pair of names, written with the smaller name first. *)
Definition unordered (p : string * string) : string * string :=
  if String.leb (fst p) (snd p) then p else (snd p, fst p).

(** * The part of networkx that Networks.py calls

    The definitions follow the library as of its versions 2 and 3: the
    [Graph] class with its adjacency dict, its degree and edge views, and
    [bidirectional_shortest_path], which [nx.shortest_path] runs when it is
    given both end nodes and no weight. *)

Module nx.

(** [nx.Graph]: the adjacency dict [_adj], from a node to the dict of its
    neighbours.  An edge's attribute dict only ever holds ['weight'], so it
    is the weight.  [_node] has the keys of [_adj] in the same order. *)
Definition Graph : Type := dict (dict Z).

Definition empty : Graph := [].

(** [n in G] *)
Definition has_node (G : Graph) (n : string) : bool := mem G n.

Definition add_node (G : Graph) (n : string) : Graph :=
  if mem G n then G else set G n [].

(** [G._adj[u][v] = {'weight': w}]; [u] is a node when this is called. *)
Definition adj_set (G : Graph) (u v : string) (w : Z) : Graph :=
  match get G u with
  | Some nbrs => set G u (set nbrs v w)
  | None => G
  end.

(** [G.add_edge(u, v, weight=w)] *)
Definition add_edge (G : Graph) (u v : string) (w : Z) : Graph :=
  let G1 := add_node (add_node G u) v in
  adj_set (adj_set G1 u v w) v u w.

(** The keys of [G.adj[v]]; the search below only asks for nodes of [G]. *)
Definition neighbors (G : Graph) (v : string) : list string :=
  match get G v with
  | Some nbrs => keys nbrs
  | None => []
  end.

(** [G.degree()]: a self-loop counts twice. *)
Definition degree (G : Graph) : list (string * Z) :=
  map (fun '(n, nbrs) =>
         (n, (Z.of_nat (List.length nbrs) + if mem nbrs n then 1 else 0)%Z))
      G.

(** [EdgeDataView.__iter__] over the pairs [(n, adj[n])]: every edge is
    reported once, from the endpoint that comes first. *)
Fixpoint edges_of (seen : list string) (nodes_nbrs : list (string * dict Z))
  : list (string * string * Z) :=
  match nodes_nbrs with
  | [] => []
  | (n, nbrs) :: r =>
      map (fun '(nbr, w) => (n, nbr, w))
          (filter (fun '(nbr, _) => negb (existsb (String.eqb nbr) seen)) nbrs)
      ++ edges_of (n :: seen) r
  end.

(** [G.edges(data=True)] *)
Definition edges (G : Graph) : list (string * string * Z) := edges_of [] G.

Fixpoint chars (s : string) : list string :=
  match s with
  | EmptyString => []
  | String c r => String c EmptyString :: chars r
  end.

(** [G.nbunch_iter(nbunch)] for a [str]: the node itself when it is one,
    else those of its characters that are nodes. *)
Definition nbunch_iter (G : Graph) (nbunch : string) : list string :=
  if mem G nbunch then [nbunch] else filter (mem G) (chars nbunch).

(** [dict.fromkeys(l)] *)
Definition fromkeys (l : list string) : dict unit :=
  fold_left (fun d k => set d k tt) l [].

(** [G.edges(nbunch, data=True)] *)
Definition edges_nbunch (G : Graph) (nbunch : string)
  : list (string * string * Z) :=
  edges_of []
    (flat_map (fun n => match get G n with
                        | Some nbrs => [(n, nbrs)]
                        | None => []
                        end)
              (keys (fromkeys (nbunch_iter G nbunch)))).

(** ** [bidirectional_shortest_path] *)

(** [for w in adj[v]:] of one side of the search: [mine] is the side's own
    dict ([pred] going forward, [succ] going back), [other] the opposite
    one.  The third component is the meeting node when the loop returns. *)
Fixpoint scan (v : string) (nbrs : list string)
    (mine other : dict (option string)) (fringe : list string)
  : dict (option string) * list string * option string :=
  match nbrs with
  | [] => (mine, fringe, None)
  | w :: r =>
      let '(mine', fringe') :=
        if mem mine w then (mine, fringe)
        else (set mine w (Some v), fringe ++ [w]) in
      if mem other w then (mine', fringe', Some w)
      else scan v r mine' other fringe'
  end.

(** [for v in this_level:] *)
Fixpoint expand (G : Graph) (this_level : list string)
    (mine other : dict (option string)) (fringe : list string)
  : dict (option string) * list string * option string :=
  match this_level with
  | [] => (mine, fringe, None)
  | v :: r =>
      match scan v (neighbors G v) mine other fringe with
      | (mine', fringe', Some w) => (mine', fringe', Some w)
      | (mine', fringe', None) => expand G r mine' other fringe'
      end
  end.

Definition is_nil {A : Type} (l : list A) : bool :=
  match l with [] => true | _ => false end.

(** [while forward_fringe and reverse_fringe:] with a bound on the number
    of iterations. *)
Fixpoint search (fuel : nat) (G : Graph) (pred succ : dict (option string))
    (forward_fringe reverse_fringe : list string)
  : outcome (dict (option string) * dict (option string) * string) :=
  match fuel with
  | O => NoFuel
  | S k =>
      if is_nil forward_fringe || is_nil reverse_fringe
      then Raised NetworkXNoPath
      else if Nat.leb (List.length forward_fringe) (List.length reverse_fringe) then
        match expand G forward_fringe pred succ [] with
        | (pred', _, Some w) => Returned (pred', succ, w)
        | (pred', fringe', None) => search k G pred' succ fringe' reverse_fringe
        end
      else
        match expand G reverse_fringe succ pred [] with
        | (succ', _, Some w) => Returned (pred, succ', w)
        | (succ', fringe', None) => search k G pred succ' forward_fringe fringe'
        end
  end.

(** [_bidirectional_pred_succ(G, source, target)] *)
Definition bidirectional_pred_succ (G : Graph) (source target : string)
  : outcome (dict (option string) * dict (option string) * string) :=
  if String.eqb target source
  then Returned ([(target, None)], [(source, None)], source)
  else search (S (List.length G)) G [(source, None)] [(target, None)]
              [source] [target].

(** [while w is not None: path.append(w); w = d[w]] *)
Fixpoint follow (fuel : nat) (d : dict (option string)) (w : option string)
  : outcome (list string) :=
  match w with
  | None => Returned []
  | Some x =>
      match fuel with
      | O => NoFuel
      | S k =>
          match get d x with
          | None => Raised KeyError
          | Some next => p <- follow k d next ;; Returned (x :: p)
          end
      end
  end.

Definition bidirectional_shortest_path (G : Graph) (source target : string)
  : outcome (list string) :=
  if negb (has_node G source) then Raised NodeNotFound
  else if negb (has_node G target) then Raised NodeNotFound
  else
    r <- bidirectional_pred_succ G source target ;;
    let '(pred, succ, w) := r in
    back <- follow (S (List.length pred)) pred (Some w) ;;
    let path := rev back in
    match get succ (last path w) with
    | None => Raised KeyError
    | Some w' =>
        rest <- follow (S (List.length succ)) succ w' ;;
        Returned (path ++ rest)
    end.

(** [nx.shortest_path(G, source, target)]: with no [weight] the method is
    the unweighted one. *)
Definition shortest_path (G : Graph) (source target : string)
  : outcome (list string) :=
  bidirectional_shortest_path G source target.

(** ** Notions used to state the graph properties *)

(** [G[u][v]['weight']] when the edge is there. *)
Definition edge_weight (G : Graph) (u v : string) : option Z :=
  match get G u with
  | Some nbrs => get nbrs v
  | None => None
  end.

(** [u] and [v] are joined by an edge. *)
Definition adjacent (G : Graph) (u v : string) : Prop :=
  In v (neighbors G u).

(** [G.has_edge(u, v)] *)
Definition has_edge (G : Graph) (u v : string) : bool :=
  match edge_weight G u v with Some _ => true | None => false end.

(** The entries [EdgeDataView] reports when it visits the node [n]. *)
Definition reported (seen : list string) (n : string) (nbrs : dict Z)
  : list (string * string * Z) :=
  map (fun '(nbr, w) => (n, nbr, w))
      (filter (fun '(nbr, _) => negb (existsb (String.eqb nbr) seen)) nbrs).

(** The endpoints of the edges of [G.edges], as unordered pairs. *)
Definition edge_pairs (G : Graph) : list (string * string) :=
  map (fun e => unordered (fst e)) (edges G).

(** What every [nx.Graph] satisfies: nodes and neighbours are dict keys,
    hence without repetition, and [v] is among the neighbours of [u] with
    weight [w] exactly when [u] is among those of [v] with weight [w]. *)
Definition well_formed (G : Graph) : Prop :=
  NoDup (keys G)
  /\ (forall u nbrs, get G u = Some nbrs -> NoDup (keys nbrs))
  /\ (forall u v w, edge_weight G u v = Some w -> edge_weight G v u = Some w).

(** [p] is a walk of [G]: its nodes are nodes of [G] and consecutive ones
    are adjacent. *)
Fixpoint walk (G : Graph) (p : list string) : Prop :=
  match p with
  | [] => True
  | u :: q =>
      has_node G u = true
      /\ match q with
         | [] => True
         | v :: _ => adjacent G u v
         end
      /\ walk G q
  end.

(** [p] leads from [s] to [t], both included. *)
Definition path_between (G : Graph) (s t : string) (p : list string) : Prop :=
  walk G p /\ hd_error p = Some s /\ last p s = t /\ p <> [].

(** The dict [pred] (or [succ]) of a search from [root]: the root has no
    parent, and every other key was entered, once, with a parent that was
    already a key and is adjacent to it. *)
Inductive search_tree (G : Graph) (root : string)
  : dict (option string) -> Prop :=
| tree_root : search_tree G root [(root, None)]
| tree_grow (d : dict (option string)) (w p : string) :
    search_tree G root d ->
    mem d w = false ->
    mem d p = true ->
    adjacent G p w ->
    search_tree G root (d ++ [(w, Some p)]).

(** Every neighbour of [u] is a key of [d]. *)
Definition closed_at (G : Graph) (d : dict (option string)) (u : string)
  : Prop :=
  forall x, adjacent G u x -> In x (keys d).

(** One side of the search between two levels: a search tree whose keys
    are either in the fringe or have all their neighbours among the keys. *)
Definition side_ok (G : Graph) (root : string) (d : dict (option string))
    (fringe : list string) : Prop :=
  search_tree G root d
  /\ (forall x, In x fringe -> In x (keys d))
  /\ (forall u, In u (keys d) -> In u fringe \/ closed_at G d u).

(** No key of a side's own dict is a key of the opposite one. *)
Definition apart (other mine : dict (option string)) : Prop :=
  forall x, In x (keys mine) -> mem other x = false.

(** The keys entered during a level are the nodes appended to the fringe. *)
Definition grown (mine mine' : dict (option string))
    (fringe fringe' : list string) : Prop :=
  exists added, keys mine' = keys mine ++ added /\ fringe' = fringe ++ added.

(** [s] and [t] lie in the same connected component. *)
Definition connected (G : Graph) (s t : string) : Prop :=
  exists p, path_between G s t p.

(** ** Notions used to show that the path found is a shortest one *)

(** [p] lists the nodes met from [x] by following the parents recorded in
    [d], up to the node whose parent is [None]. *)
Inductive chain (d : dict (option string)) : string -> list string -> Prop :=
| chain_root (x : string) :
    get d x = Some None -> chain d x [x]
| chain_step (x y : string) (p : list string) :
    get d x = Some (Some y) -> chain d y p -> chain d x (x :: p).

(** [x] is joined to [root] by a walk of at most [n] edges. *)
Inductive within (G : Graph) (root : string) : nat -> string -> Prop :=
| within_root (n : nat) : within G root n root
| within_step (n : nat) (u x : string) :
    within G root n u -> adjacent G u x -> within G root (S n) x.

(** Every key of [d] is at most [n] parents away from the root. *)
Definition deep (d : dict (option string)) (n : nat) : Prop :=
  forall x, In x (keys d) ->
    exists p, chain d x p /\ List.length p <= S n.

(** The keys of [d] hold every node at most [n] edges away from [root]. *)
Definition covers (G : Graph) (root : string) (d : dict (option string))
    (n : nat) : Prop :=
  forall x, within G root n x -> In x (keys d).

End nx.

(** * Networks.py *)

Module Networks.

(** A row of the table read by [pd.read_csv]. *)
Record row : Type := {
  Character_1 : string;
  Character_2 : string;
  Scenes_Together : Z
}.

(** The loop of [load_data] over the rows, from the graph [G] on. *)
Definition add_rows (G : nx.Graph) (data : list row) (min_scenes : Z)
  : nx.Graph :=
  fold_left
    (fun G r =>
       if (Scenes_Together r >=? min_scenes)%Z
       then nx.add_edge G (Character_1 r) (Character_2 r) (Scenes_Together r)
       else G)
    data G.

(** [load_data], from the rows of the file on. *)
Definition load_data (data : list row) (min_scenes : Z) : nx.Graph :=
  add_rows nx.empty data min_scenes.

Definition top_connected_characters (graph : nx.Graph) (top_n : Z)
  : list (string * Z) :=
  let degrees := nx.degree graph in
  let sorted_degrees := sorted_desc snd degrees in
  slice_to sorted_degrees top_n.

Definition top_strongest_pairs (graph : nx.Graph) (top_n : Z)
  : list ((string * string) * Z) :=
  let edges := nx.edges graph in
  let sorted_edges := sorted_desc (fun e => snd e) edges in
  map (fun '(u, v, w) => ((u, v), w)) (slice_to sorted_edges top_n).

Definition shortest_path (graph : nx.Graph) (char1 char2 : string)
  : outcome (option (list string)) :=
  match nx.shortest_path graph char1 char2 with
  | Returned path => Returned (Some path)
  | Raised NetworkXNoPath => Returned None
  | Raised e => Raised e
  | NoFuel => NoFuel
  end.

Definition family_groups : dict (list string) :=
  [ ("Pritchett", ["Jay"; "Gloria"; "Manny"; "Joe"]);
    ("Dunphy", ["Claire"; "Phil"; "Haley"; "Alex"; "Luke"]);
    ("Tucker-Pritchett", ["Mitchell"; "Cameron"; "Lily"]) ].

Fixpoint find_family (groups : dict (list string)) (character : string)
  : string :=
  match groups with
  | [] => "Unknown"
  | (family, members) :: r =>
      if existsb (String.eqb character) members then family
      else find_family r character
  end.

Definition get_family (character : string) : string :=
  find_family family_groups character.

Record stats : Type := {
  total_scenes : Z;
  top_co_character : string * Z;
  unique_co_appearances : nat;
  family : string
}.

Definition character_stats (graph : nx.Graph) (character : string)
  : outcome stats :=
  let total :=
    py_sum (map (fun e => snd e) (nx.edges_nbunch graph character)) in
  match get graph character with
  | None => Raised KeyError
  | Some neighbors =>
      top <- py_max snd neighbors ;;
      Returned {| total_scenes := total;
                  top_co_character := top;
                  unique_co_appearances := List.length neighbors;
                  family := get_family character |}
  end.

(** Some row joins [a] and [b], in either order, with a weight of at
    least [min_scenes]. *)
Definition kept (data : list row) (min_scenes : Z) (a b : string) : Prop :=
  exists r, In r data
            /\ (min_scenes <= Scenes_Together r)%Z
            /\ ((Character_1 r = a /\ Character_2 r = b)
                \/ (Character_1 r = b /\ Character_2 r = a)).

(** ** Sample inputs *)

Definition mk_row (a b : string) (w : Z) : row :=
  {| Character_1 := a; Character_2 := b; Scenes_Together := w |}.

(** The records [(A,B,60), (B,C,5), (A,C,40)]. *)
Definition example_rows : list row :=
  [mk_row "A" "B" 60; mk_row "B" "C" 5; mk_row "A" "C" 40].

(** ** Notions used for further properties of the graph *)

(** The row [r] joins [a] and [b], in either order. *)
Definition joins (r : row) (a b : string) : bool :=
  (String.eqb (Character_1 r) a && String.eqb (Character_2 r) b)
  || (String.eqb (Character_2 r) a && String.eqb (Character_1 r) b).

(** The number of scenes of the last row that joins [a] and [b] with at
    least [min_scenes] scenes. *)
Definition last_kept (data : list row) (min_scenes : Z) (a b : string)
  : option Z :=
  fold_left
    (fun found r =>
       if (Scenes_Together r >=? min_scenes)%Z && joins r a b
       then Some (Scenes_Together r)
       else found)
    data None.

(** The names of the three family lists. *)
Definition pritchetts : list string := ["Jay"; "Gloria"; "Manny"; "Joe"].
Definition dunphys : list string := ["Claire"; "Phil"; "Haley"; "Alex"; "Luke"].
Definition tucker_pritchetts : list string := ["Mitchell"; "Cameron"; "Lily"].

End Networks.

(** * Properties *)

(** ** Dictionaries *)

Section DictFacts.
Context {V : Type}.
Implicit Types (d : dict V) (k : string) (v : V).

Lemma get_set_same d k v : get (set d k v) k = Some v.
Proof.
  induction d as [|[k' v'] r IH]; simpl.
  - now rewrite String.eqb_refl.
  - destruct (String.eqb k' k) eqn:E; simpl; rewrite E; auto.
Qed.

Lemma get_set_other d k k' v : k <> k' -> get (set d k v) k' = get d k'.
Proof.
  intros Hn. induction d as [|[k0 v0] r IH]; simpl.
  - apply String.eqb_neq in Hn. now rewrite Hn.
  - destruct (String.eqb k0 k) eqn:E; simpl.
    + apply String.eqb_eq in E. subst k0.
      apply String.eqb_neq in Hn. now rewrite Hn.
    + now rewrite IH.
Qed.

Lemma mem_set_same d k v : mem (set d k v) k = true.
Proof. unfold mem. now rewrite get_set_same. Qed.

Lemma mem_set_other d k k' v : k <> k' -> mem (set d k v) k' = mem d k'.
Proof. intros. unfold mem. now rewrite get_set_other. Qed.

Lemma mem_In d k : mem d k = true <-> In k (keys d).
Proof.
  unfold mem. induction d as [|[k' v'] r IH]; simpl.
  - split; [discriminate | tauto].
  - destruct (String.eqb k' k) eqn:E.
    + apply String.eqb_eq in E. tauto.
    + apply String.eqb_neq in E. rewrite IH. tauto.
Qed.

Lemma mem_false_In d k : mem d k = false <-> ~ In k (keys d).
Proof.
  rewrite <- mem_In. destruct (mem d k); split; congruence.
Qed.

Lemma get_In d k v : get d k = Some v -> In (k, v) d.
Proof.
  induction d as [|[k' v'] r IH]; simpl; [discriminate|].
  destruct (String.eqb k' k) eqn:E.
  - apply String.eqb_eq in E. intros [= ->]. subst. now left.
  - auto.
Qed.

Lemma In_get d k v : NoDup (keys d) -> In (k, v) d -> get d k = Some v.
Proof.
  induction d as [|[k' v'] r IH]; simpl; [tauto|].
  intros Hnd [[= -> ->]|Hin].
  - now rewrite String.eqb_refl.
  - inversion Hnd as [|? ? Hni Hnd']; subst.
    destruct (String.eqb k' k) eqn:E.
    + apply String.eqb_eq in E. subst k'.
      exfalso. apply Hni. change k with (fst (k, v)). now apply in_map.
    + auto.
Qed.

Lemma set_absent d k v : mem d k = false -> set d k v = d ++ [(k, v)].
Proof.
  unfold mem. induction d as [|[k' v'] r IH]; simpl; auto.
  destruct (String.eqb k' k); [discriminate|].
  intros H. now rewrite IH.
Qed.

Lemma keys_set_present d k v : mem d k = true -> keys (set d k v) = keys d.
Proof.
  unfold mem, keys. induction d as [|[k' v'] r IH]; simpl; [discriminate|].
  destruct (String.eqb k' k); simpl; auto.
  intros H. now rewrite IH.
Qed.

Lemma keys_set_absent d k v : mem d k = false -> keys (set d k v) = keys d ++ [k].
Proof.
  intros H. rewrite set_absent by assumption. unfold keys.
  now rewrite map_app.
Qed.

Lemma NoDup_keys_set d k v : NoDup (keys d) -> NoDup (keys (set d k v)).
Proof.
  intros Hnd. destruct (mem d k) eqn:E.
  - now rewrite keys_set_present.
  - rewrite keys_set_absent by assumption.
    apply NoDup_app; [assumption | constructor; [tauto | constructor] |].
    intros x Hx [<-|[]]. now apply mem_false_In in E.
Qed.

End DictFacts.

(** ** Strings *)

(** [span] cuts its argument in two: the first part satisfies the test
    throughout, the second does not start with a character that does. *)
Lemma span_spec (p : ascii -> bool) (s a b : string) :
  span p s = (a, b) ->
  s = (a ++ b)%string /\ all_chars p a = true /\ head_sat p b = false.
Proof.
  revert a b. induction s as [|c r IH]; simpl; intros a b H.
  - injection H as <- <-. auto.
  - destruct (p c) eqn:E.
    + destruct (span p r) as [a' b'] eqn:Er. injection H as <- <-.
      destruct (IH _ _ eq_refl) as (-> & Ha & Hb). simpl. rewrite E. auto.
    + injection H as <- <-. simpl. auto.
Qed.

(** Conversely such a cut is the one [span] finds. *)
Lemma span_unique (p : ascii -> bool) (a b : string) :
  all_chars p a = true -> head_sat p b = false ->
  span p (a ++ b)%string = (a, b).
Proof.
  intros Ha Hb. induction a as [|c a IH]; simpl in *.
  - destruct b as [|c b]; simpl in *; [reflexivity | now rewrite Hb].
  - apply andb_true_iff in Ha as [Hc Ha]. rewrite Hc, IH; auto.
Qed.

Import episodes.

(** The one-pass matcher finds exactly the groups of the episode pattern. *)
Lemma episode_pattern_match_spec (line season episode_num title : string) :
  episode_pattern_match line = Some (season, episode_num, title)
  <-> episode_line line season episode_num title.
Proof.
  unfold episode_pattern_match, episode_line. split.
  - destruct (span isdigit line) as [se r1] eqn:E1.
    destruct (is_empty se) eqn:Ese; [discriminate|].
    destruct r1 as [|c r2]; [discriminate|].
    destruct (Ascii.eqb c "x") eqn:Ec;
      [apply Ascii.eqb_eq in Ec; subst c
      | revert Ec; destruct c as [[] [] [] [] [] [] [] []]; simpl;
        try discriminate].
    destruct (span isdigit r2) as [ep r3] eqn:E2.
    destruct (is_empty ep) eqn:Eep; [discriminate|].
    destruct (span isspace r3) as [ws r4] eqn:E3.
    destruct (span (fun c => negb (Ascii.eqb c newline)) r4) as [t rest] eqn:E4.
    intros [= <- <- <-].
    apply span_spec in E1 as (-> & Hse & _).
    apply span_spec in E2 as (-> & Hep & Hd).
    apply span_spec in E3 as (-> & Hws & Hs).
    apply span_spec in E4 as (-> & Ht & Hr).
    exists ws, rest. repeat split; auto.
  - intros (ws & rest & -> & Ese & Hse & Eep & Hep & Hd & Hws & Hs & Ht & Hr).
    rewrite (span_unique isdigit season) by auto.
    rewrite Ese. simpl.
    rewrite (span_unique isdigit episode_num) by auto.
    rewrite Eep.
    rewrite (span_unique isspace ws) by auto.
    change (fun c => negb (Ascii.eqb c newline)) with not_newline.
    rewrite (span_unique not_newline title) by auto.
    reflexivity.
Qed.

(** Padding a run of digits to width 2. *)
Lemma zfill_digits (s : string) :
  all_chars isdigit s = true ->
  zfill s 2 = (zeros (2 - String.length s) ++ s)%string.
Proof.
  unfold zfill. destruct s as [|c r]; simpl.
  - intros _. reflexivity.
  - intros H. apply andb_true_iff in H as [Hc _].
    destruct (Ascii.eqb c "+") eqn:E1.
    { apply Ascii.eqb_eq in E1. subst c. discriminate. }
    destruct (Ascii.eqb c "-") eqn:E2.
    { apply Ascii.eqb_eq in E2. subst c. discriminate. }
    reflexivity.
Qed.

Lemma step_code_id (season episode_num title line : string) :
  episode_pattern_match line = Some (season, episode_num, title) ->
  ("S" ++ season ++ "E" ++ zfill episode_num 2)%string
  = episode_id season episode_num.
Proof.
  intros H. apply episode_pattern_match_spec in H.
  destruct H as (ws & rest & _ & _ & _ & _ & Hep & _).
  unfold episode_id. now rewrite zfill_digits.
Qed.

Lemma is_scene_end_not_start (line : string) :
  is_scene_end line = true -> is_scene_start line = false.
Proof.
  unfold is_scene_end, is_scene_start.
  destruct line as [|c r]; cbn [startswith]; [discriminate|].
  destruct (Ascii.eqb "-" c) eqn:E; [|discriminate].
  apply Ascii.eqb_eq in E. subst c. reflexivity.
Qed.

(** ** The transcript segmenter *)

(** An invariant of the loop body holds after any number of iterations,
    and the loop does not raise. *)
Lemma run_invariant (I : list string -> state -> Prop) :
  (forall done st raw, I done st ->
     exists st', step st raw = Returned st' /\ I (done ++ [raw]) st') ->
  forall todo done st, I done st ->
    exists st', run st todo = Returned st' /\ I (done ++ todo) st'.
Proof.
  intros Hstep. induction todo as [|raw todo IH]; intros done st HI; simpl.
  - exists st. now rewrite app_nil_r.
  - destruct (Hstep done st raw HI) as (st1 & -> & H1). simpl.
    destruct (IH _ _ H1) as (st' & Hrun & H').
    exists st'. split; [assumption|].
    now rewrite <- app_assoc in H'.
Qed.

Lemma step_inv (st : state) (raw : string) :
  inv st -> exists st', step st raw = Returned st' /\ inv st'.
Proof.
  intros [Hbuf Hcur]. unfold step.
  destruct (is_scene_start (strip raw)) eqn:Estart.
  { eexists. split; [reflexivity|]. split; simpl; [discriminate | exact Hcur]. }
  destruct (in_scene st) eqn:Ein; simpl.
  - destruct (is_scene_end (strip raw)) eqn:Eend.
    + destruct (scene_buffer st) as [|b0 bs] eqn:Eb.
      { eexists. split; [reflexivity|]. split; simpl; [discriminate | exact Hcur]. }
      unfold active. destruct (current_episode st) as [e|] eqn:Ece.
      * destruct (Hcur e eq_refl) as [Hne Hmem]. rewrite Hne.
        unfold commit. unfold mem in Hmem.
        destruct (get (episodes st) e) as [r|] eqn:Eg; [|discriminate].
        eexists. split; [reflexivity|]. split; simpl; [discriminate|].
        intros e' He'. rewrite Ece in He'. injection He' as <-.
        split; [assumption | apply mem_set_same].
      * eexists. split; [reflexivity|].
        split; simpl; [discriminate | exact Hcur].
    + destruct (episode_pattern_match (strip raw)) as [[[season ep] t]|] eqn:Em.
      * eexists. split; [reflexivity|]. split; simpl.
        { intros _. now destruct (scene_buffer st). }
        intros e [= <-]. split; [reflexivity|].
        destruct (mem (episodes st) _) eqn:Emem;
          [assumption | apply mem_set_same].
      * eexists. split; [reflexivity|]. split; simpl.
        { intros _. now destruct (scene_buffer st). }
        exact Hcur.
  - exists st. split; [reflexivity|]. split; [rewrite Ein; discriminate | exact Hcur].
Qed.

Lemma init_inv : inv init.
Proof. split; simpl; [discriminate | intros e; discriminate]. Qed.

Lemma run_inv (st : state) (lines : list string) :
  inv st -> exists st', run st lines = Returned st' /\ inv st'.
Proof.
  intros H.
  destruct (run_invariant (fun _ => inv)
              (fun _ st raw => step_inv st raw) lines [] st H)
    as (st' & Hrun & H').
  eauto.
Qed.

Lemma reached_inv (lines : list string) (st : state) :
  run init lines = Returned st -> inv st.
Proof.
  intros H. destruct (run_inv init lines init_inv) as (st' & Hrun & H').
  congruence.
Qed.

(** [extract_episodes_from_text] returns on every text. *)
Lemma extract_returns (text : string) :
  exists st, run init (str_split newline text) = Returned st
             /\ extract_episodes_from_text text
                = Returned (episodes st, scenes_with_episodes st).
Proof.
  destruct (run_inv init (str_split newline text) init_inv) as (st & H & _).
  exists st. split; [assumption|].
  unfold extract_episodes_from_text. now rewrite H.
Qed.

(** Outside a scene the content of the buffer has no effect on what is
    returned. *)
Lemma buffer_unused_when_idle (more : list string) :
  forall (st : state) (buffer : list string),
    in_scene st = false ->
    outputs (run (with_buffer st buffer) more) = outputs (run st more).
Proof.
  induction more as [|raw more IH]; intros st buffer Hidle; simpl.
  - reflexivity.
  - unfold step. simpl. rewrite Hidle. simpl.
    destruct (is_scene_start (strip raw)); simpl.
    + reflexivity.
    + apply IH. assumption.
Qed.

(** Reduce the projections of a state that is written out. *)
Ltac fields :=
  cbn [episodes scenes_with_episodes current_episode current_episode_title
       scene_buffer in_scene].

(** ** Lines inside a scene (claim C7) *)

(** C7, as the claim states it, fails: inside a scene a line that does not
    start with the close marker but starts a scene is not appended to the
    buffer, it replaces the buffer. *)
Lemma C7_scene_start_resets_buffer :
  ~ (forall (lines : list string) (st : state) (raw : string),
       run init lines = Returned st ->
       in_scene st = true ->
       is_scene_end (strip raw) = false ->
       exists st', step st raw = Returned st'
                   /\ scene_buffer st' = scene_buffer st ++ [strip raw]).
Proof.
  intros H.
  destruct (H ["=== Scene 1 ==="] after_scene_start "=== Scene 2 ==="
              eq_refl eq_refl eq_refl) as (st' & Hstep & Hbuf).
  vm_compute in Hstep. injection Hstep as <-.
  vm_compute in Hbuf. discriminate Hbuf.
Qed.

(** C7 (amended): inside a scene, a line that does not start with the
    close marker keeps the scene open and commits nothing, and what it does
    to the buffer depends on whether it starts a scene.  A scene-start line
    replaces the buffer by that line alone, trimmed, and leaves the current
    episode, the current title and [episodes] as they are.  Every other
    line is appended, trimmed, to the buffer; when the episode pattern
    accepts it, the current episode becomes [S<season>E<episode>] with the
    episode digits padded to width 2 and the current title the trimmed rest
    of the line; an identifier not yet in [episodes] gets a record with
    this title and no scene, placed last, and an identifier already there
    leaves [episodes] as it is.  When the pattern rejects the line nothing
    else changes. *)
Theorem C7_in_scene_line (st : state) (raw : string) :
  in_scene st = true ->
  is_scene_end (strip raw) = false ->
  exists st',
    step st raw = Returned st'
    /\ in_scene st' = true
    /\ scenes_with_episodes st' = scenes_with_episodes st
    /\ (is_scene_start (strip raw) = true ->
        scene_buffer st' = [strip raw]
        /\ current_episode st' = current_episode st
        /\ current_episode_title st' = current_episode_title st
        /\ episodes st' = episodes st)
    /\ (is_scene_start (strip raw) = false ->
        scene_buffer st' = scene_buffer st ++ [strip raw]
        /\ (forall season episode_num rest,
              episode_line (strip raw) season episode_num rest ->
              current_episode st' = Some (episode_id season episode_num)
              /\ current_episode_title st' = Some (strip rest)
              /\ (mem (episodes st) (episode_id season episode_num) = false ->
                  episodes st'
                  = episodes st
                    ++ [(episode_id season episode_num,
                         {| title := strip rest; scenes := [] |})])
              /\ (mem (episodes st) (episode_id season episode_num) = true ->
                  episodes st' = episodes st))
        /\ ((forall season episode_num rest,
               ~ episode_line (strip raw) season episode_num rest) ->
            current_episode st' = current_episode st
            /\ current_episode_title st' = current_episode_title st
            /\ episodes st' = episodes st)).
Proof.
  intros Hin Hend. unfold step.
  destruct (is_scene_start (strip raw)) eqn:Hstart.
  { eexists. split; [reflexivity|]. fields.
    split; [reflexivity|]. split; [reflexivity|].
    split; [intros _; repeat split | discriminate]. }
  rewrite Hin, Hend. cbn [andb].
  destruct (episode_pattern_match (strip raw)) as [[[season ep] t]|] eqn:Em.
  - rewrite (step_code_id _ _ _ _ Em).
    eexists. split; [reflexivity|]. fields.
    split; [reflexivity|]. split; [reflexivity|].
    split; [discriminate|]. intros _.
    split; [reflexivity|]. split.
    + intros season' ep' t' H. apply episode_pattern_match_spec in H.
      rewrite H in Em. injection Em as <- <- <-.
      split; [reflexivity|]. split; [reflexivity|].
      split; intros Hmem; rewrite Hmem; [now apply set_absent | reflexivity].
    + intros H. exfalso. apply (H season ep t).
      now apply episode_pattern_match_spec.
  - eexists. split; [reflexivity|]. fields.
    split; [reflexivity|]. split; [reflexivity|].
    split; [discriminate|]. intros _.
    split; [reflexivity|]. split.
    + intros season' ep' t' H. apply episode_pattern_match_spec in H.
      congruence.
    + intros _. repeat split.
Qed.

Lemma C7_in_scene_line_witness :
  in_scene after_scene_start = true
  /\ is_scene_end (strip "1x2   The Bicycle Thief ") = false
  /\ is_scene_end (strip "  === Scene 2 ===") = false
  /\ (exists st',
        step after_scene_start "1x2   The Bicycle Thief " = Returned st'
        /\ scene_buffer st' = ["=== Scene 1 ==="; "1x2   The Bicycle Thief"])
  /\ (exists st',
        step after_scene_start "  === Scene 2 ===" = Returned st'
        /\ scene_buffer st' = ["=== Scene 2 ==="]).
Proof.
  split; [reflexivity|]. split; [reflexivity|]. split; [reflexivity|]. split.
  - destruct (C7_in_scene_line after_scene_start "1x2   The Bicycle Thief "
                eq_refl eq_refl) as (st' & Hstep & _ & _ & _ & Hother).
    destruct (Hother eq_refl) as (Hbuf & _).
    exists st'. split; [exact Hstep | exact Hbuf].
  - destruct (C7_in_scene_line after_scene_start "  === Scene 2 ==="
                eq_refl eq_refl) as (st' & Hstep & _ & _ & Hstart & _).
    destruct (Hstart eq_refl) as (Hbuf & _).
    exists st'. split; [exact Hstep | exact Hbuf].
Defined.

(** ** Closing a scene (claim C8) *)

(** C8: when a line that starts with the close marker is read inside a
    scene, the scene is closed.  With an active episode the buffered lines,
    joined by newlines, are appended to that episode's scene list and, with
    the episode and its title, to the flat list; with no active episode
    neither structure changes.  In both cases what is left in the buffer has
    no effect on anything returned later. *)
Theorem C8_scene_close (lines : list string) (st : state) (raw : string) :
  run init lines = Returned st ->
  in_scene st = true ->
  is_scene_end (strip raw) = true ->
  exists st',
    step st raw = Returned st'
    /\ in_scene st' = false
    /\ current_episode st' = current_episode st
    /\ current_episode_title st' = current_episode_title st
    /\ match current_episode st with
       | Some e =>
           exists r,
             get (episodes st) e = Some r
             /\ episodes st'
                = set (episodes st) e
                      {| title := title r;
                         scenes := scenes r ++ [join nl (scene_buffer st)] |}
             /\ scenes_with_episodes st'
                = scenes_with_episodes st
                  ++ [{| episode := e;
                         scene_title := current_episode_title st;
                         scene := join nl (scene_buffer st) |}]
       | None =>
           episodes st' = episodes st
           /\ scenes_with_episodes st' = scenes_with_episodes st
       end
    /\ forall (more buffer : list string),
         outputs (run (with_buffer st' buffer) more) = outputs (run st' more).
Proof.
  intros Hrun Hin Hend. destruct (reached_inv _ _ Hrun) as [Hbuf Hcur].
  unfold step. rewrite (is_scene_end_not_start _ Hend), Hin, Hend. simpl.
  destruct (scene_buffer st) as [|b0 bs] eqn:Eb; [now elim (Hbuf Hin)|].
  unfold active. destruct (current_episode st) as [e|] eqn:Ece.
  - destruct (Hcur e eq_refl) as [Hne Hmem]. rewrite Hne.
    unfold commit. unfold mem in Hmem.
    destruct (get (episodes st) e) as [r|] eqn:Eg; [|discriminate].
    eexists. split; [reflexivity|]. simpl. rewrite Eb.
    repeat split; trivial.
    + exists r. repeat split; reflexivity.
    + intros more buffer. now apply buffer_unused_when_idle.
  - eexists. split; [reflexivity|]. simpl. repeat split; trivial.
    intros more buffer. now apply buffer_unused_when_idle.
Qed.

Lemma C8_scene_close_witness :
  run init ["=== Scene 1 ==="; "1x02 The Bicycle Thief"; "Hello."]
  = Returned
      {| episodes := [("S1E02", {| title := "The Bicycle Thief"; scenes := [] |})];
         scenes_with_episodes := [];
         current_episode := Some "S1E02";
         current_episode_title := Some "The Bicycle Thief";
         scene_buffer := ["=== Scene 1 ==="; "1x02 The Bicycle Thief"; "Hello."];
         in_scene := true |}
  /\ is_scene_end (strip "--- end") = true
  /\ exists st',
       step {| episodes := [("S1E02", {| title := "The Bicycle Thief"; scenes := [] |})];
               scenes_with_episodes := [];
               current_episode := Some "S1E02";
               current_episode_title := Some "The Bicycle Thief";
               scene_buffer := ["=== Scene 1 ==="; "1x02 The Bicycle Thief"; "Hello."];
               in_scene := true |} "--- end" = Returned st'
       /\ in_scene st' = false.
Proof.
  split; [reflexivity|]. split; [reflexivity|].
  destruct (C8_scene_close
              ["=== Scene 1 ==="; "1x02 The Bicycle Thief"; "Hello."]
              _ "--- end" eq_refl eq_refl eq_refl) as (st' & Hstep & Hidle & _).
  exists st'. split; [exact Hstep | exact Hidle].
Defined.

(** ** Titles (claim C9) *)

Lemma get_app {V : Type} (d1 d2 : dict V) (k : string) :
  get (d1 ++ d2) k
  = match get d1 k with Some v => Some v | None => get d2 k end.
Proof.
  induction d1 as [|[k' v'] r IH]; simpl; [reflexivity|].
  destruct (String.eqb k' k); auto.
Qed.

Lemma mem_get_none {V : Type} (d : dict V) (k : string) :
  mem d k = false -> get d k = None.
Proof. unfold mem. destruct (get d k); [discriminate | reflexivity]. Qed.

(** Committing a scene does not touch any title. *)
Lemma title_set_scenes (d : dict episode_rec) (e id : string)
    (r : episode_rec) (ss : list string) :
  get d e = Some r ->
  option_map title (get (set d e {| title := title r; scenes := ss |}) id)
  = option_map title (get d id).
Proof.
  intros Hg. destruct (string_dec e id) as [<-|Hn].
  - now rewrite get_set_same, Hg.
  - now rewrite get_set_other.
Qed.

Lemma step_titles (st st1 : state) (raw : string) (more : list string) :
  step st raw = Returned st1 ->
  forall id,
    title_or (option_map title (get (episodes st1) id))
             (get (declarations (in_scene st1) more) id)
    = title_or (option_map title (get (episodes st) id))
               (get (declarations (in_scene st) (raw :: more)) id).
Proof.
  intros Hs id. cbn [declarations]. unfold step in Hs.
  destruct (is_scene_start (strip raw)) eqn:Estart.
  { injection Hs as <-. reflexivity. }
  destruct (in_scene st) eqn:Ein; cbn [andb] in *.
  - destruct (is_scene_end (strip raw)) eqn:Eend.
    + destruct (scene_buffer st) as [|b0 bs];
        [injection Hs as <-; reflexivity|].
      destruct (active (current_episode st)) as [e|];
        [|injection Hs as <-; reflexivity].
      unfold commit in Hs.
      destruct (get (episodes st) e) as [r|] eqn:Eg; [|discriminate].
      injection Hs as <-. fields. now rewrite title_set_scenes.
    + destruct (episode_pattern_match (strip raw)) as [[[season ep] t]|] eqn:Em;
        [|injection Hs as <-; reflexivity].
      rewrite (step_code_id _ _ _ _ Em) in Hs. injection Hs as <-. fields.
      cbn [get].
      destruct (String.eqb (episode_id season ep) id) eqn:Eid.
      * apply String.eqb_eq in Eid. subst id.
        destruct (mem (episodes st) (episode_id season ep)) eqn:Emem.
        -- unfold mem in Emem.
           now destruct (get (episodes st) (episode_id season ep)).
        -- rewrite get_set_same, (mem_get_none _ _ Emem). reflexivity.
      * apply String.eqb_neq in Eid.
        destruct (mem (episodes st) (episode_id season ep)); [reflexivity|].
        now rewrite get_set_other.
  - injection Hs as <-. now rewrite Ein.
Qed.

Lemma run_titles (lines : list string) :
  forall st, inv st ->
    exists st', run st lines = Returned st'
      /\ forall id,
           option_map title (get (episodes st') id)
           = title_or (option_map title (get (episodes st) id))
                      (get (declarations (in_scene st) lines) id).
Proof.
  induction lines as [|raw more IH]; intros st Hinv.
  - exists st. split; [reflexivity|]. intros id. simpl.
    now destruct (option_map title (get (episodes st) id)).
  - destruct (step_inv st raw Hinv) as (st1 & Hs & Hinv1).
    destruct (IH st1 Hinv1) as (st' & Hrun & Ht).
    exists st'. split; [simpl; now rewrite Hs|].
    intros id. rewrite Ht. now apply step_titles.
Qed.

(** C9: on every text the function returns, and for every identifier the
    title stored in the returned mapping is the trimmed title of the first
    header line met for that identifier during the scan (and the identifier
    is absent from the mapping when no header declared it). *)
Theorem C9_first_title_kept (text : string) :
  exists eps flat,
    extract_episodes_from_text text = Returned (eps, flat)
    /\ forall id,
         option_map title (get eps id)
         = get (declarations false (str_split newline text)) id.
Proof.
  destruct (run_titles (str_split newline text) init init_inv)
    as (st & Hrun & Ht).
  exists (episodes st), (scenes_with_episodes st). split.
  - unfold extract_episodes_from_text. now rewrite Hrun.
  - intros id. now rewrite Ht.
Qed.

(** ** Episodes without a scene (claim C10) *)

(** C10: some transcripts give an identifier with an empty scene list, both
    when a later header of the same scene is the active one at the close
    and when the scene never closes. *)
Theorem C10_episode_without_scene :
  (exists text eps flat r,
     text = ("=== Scene 1 ===" ++ nl ++ "1x01 Pilot" ++ nl
             ++ "1x02 The Bicycle Thief" ++ nl ++ "---")%string
     /\ extract_episodes_from_text text = Returned (eps, flat)
     /\ get eps "S1E01" = Some r /\ scenes r = [])
  /\ (exists text eps flat r,
        text = ("=== Scene 1 ===" ++ nl ++ "1x01 Pilot")%string
        /\ extract_episodes_from_text text = Returned (eps, flat)
        /\ get eps "S1E01" = Some r /\ scenes r = []).
Proof.
  split.
  - eexists _, _, _, _. split; [reflexivity|].
    split; [vm_compute; reflexivity|]. split; reflexivity.
  - eexists _, _, _, _. split; [reflexivity|].
    split; [vm_compute; reflexivity|]. split; reflexivity.
Qed.

(** ** The text of a committed scene (claim C4) *)

Lemma scene_of_block_more (render : list string -> string)
    (done more : list string) (text : string) :
  scene_of_block render done text ->
  scene_of_block render (done ++ more) text.
Proof.
  intros (pre & block & close & post & -> & Hhd & Htl & Hclose & ->).
  exists pre, block, close, (post ++ more).
  repeat split; trivial.
  now rewrite <- !app_assoc.
Qed.

Lemma open_block_not_nil (block : list string) :
  is_scene_start (strip (hd EmptyString block)) = true -> block <> [].
Proof. intros H ->. discriminate H. Qed.

Lemma step_scenes_from_blocks (done : list string) (st : state) (raw : string) :
  scenes_from_blocks done st ->
  exists st', step st raw = Returned st'
              /\ scenes_from_blocks (done ++ [raw]) st'.
Proof.
  intros (Hinv & Hopen & Hflat & Heps).
  destruct (step_inv st raw Hinv) as (st1 & Hs & Hinv1).
  exists st1. split; [assumption|]. split; [assumption|].
  assert (Hflat' : forall rec, In rec (scenes_with_episodes st) ->
            scene_of_block trimmed (done ++ [raw]) (scene rec))
    by (intros; now apply scene_of_block_more, Hflat).
  assert (Heps' : forall id r s, get (episodes st) id = Some r ->
            In s (scenes r) -> scene_of_block trimmed (done ++ [raw]) s)
    by (intros; eapply scene_of_block_more, Heps; eauto).
  clear Hflat Heps Hinv1. unfold step in Hs.
  destruct (is_scene_start (strip raw)) eqn:Estart.
  { injection Hs as <-. fields. refine (conj _ (conj Hflat' Heps')).
    intros _. exists done, [raw]. repeat split; trivial. }
  destruct (in_scene st) eqn:Ein; cbn [andb] in *.
  - destruct (Hopen eq_refl) as (pre & block & -> & Hhd & Htl & Hbuf).
    destruct (is_scene_end (strip raw)) eqn:Eend.
    + assert (Hnew : scene_of_block trimmed ((pre ++ block) ++ [raw])
                       (join nl (scene_buffer st))).
      { exists pre, block, raw, []. repeat split; trivial.
        - now rewrite <- app_assoc.
        - unfold trimmed. now rewrite Hbuf. }
      destruct (scene_buffer st) as [|b0 bs] eqn:Eb.
      { injection Hs as <-. fields.
        refine (conj _ (conj Hflat' Heps')). discriminate. }
      destruct (active (current_episode st)) as [e|].
      2:{ injection Hs as <-. fields.
          refine (conj _ (conj Hflat' Heps')). discriminate. }
      unfold commit in Hs. rewrite Eb in Hs.
      destruct (get (episodes st) e) as [r|] eqn:Eg; [|discriminate].
      injection Hs as <-. fields. refine (conj _ (conj _ _)).
      * discriminate.
      * intros rec [Hin|[<-|[]]]%in_app_or; [now apply Hflat' | exact Hnew].
      * intros id r' s Hg Hin. destruct (string_dec e id) as [<-|Hn].
        -- rewrite get_set_same in Hg. injection Hg as <-. simpl in Hin.
           apply in_app_or in Hin as [Hin|[<-|[]]];
             [eapply Heps'; eauto | exact Hnew].
        -- rewrite get_set_other in Hg by assumption. eapply Heps'; eauto.
    + assert (Hopen' : forall st',
                scene_buffer st' = scene_buffer st ++ [strip raw] ->
                open_block ((pre ++ block) ++ [raw]) st').
      { intros st' Hb. exists pre, (block ++ [raw]).
        pose proof (open_block_not_nil _ Hhd) as Hne.
        destruct block as [|b0 bs]; [congruence|]. simpl in *.
        repeat split; trivial.
        - now rewrite <- app_assoc.
        - apply Forall_app. split; [assumption|]. now repeat constructor.
        - rewrite Hb, Hbuf, map_app. reflexivity. }
      destruct (episode_pattern_match (strip raw)) as [[[season ep] t]|] eqn:Em.
      * injection Hs as <-. fields. refine (conj _ (conj Hflat' _)).
        -- intros _. now apply Hopen'.
        -- intros id r s Hg Hin.
           destruct (mem (episodes st) _) eqn:Emem; [eapply Heps'; eauto|].
           rewrite set_absent, get_app in Hg by assumption.
           destruct (get (episodes st) id) as [r0|] eqn:Eg0.
           ++ injection Hg as <-. eapply Heps'; eauto.
           ++ cbn [get] in Hg.
              match type of Hg with
              | (if ?c then _ else _) = _ => destruct c; [|discriminate]
              end.
              injection Hg as <-. destruct Hin.
      * injection Hs as <-. fields. refine (conj _ (conj Hflat' Heps')).
        intros _. now apply Hopen'.
  - injection Hs as <-. refine (conj _ (conj Hflat' Heps')).
    rewrite Ein. discriminate.
Qed.

Lemma init_scenes_from_blocks : scenes_from_blocks [] init.
Proof.
  split; [apply init_inv|]. split; [discriminate|].
  split; [intros rec []|]. intros id r s H. discriminate H.
Qed.

(** C4 (amended): on every text the function returns, and the text of
    every committed scene, in the flat list and in the scene lists of the
    mapping, is made of the lines of a scene block of the input, each with
    the white space at both ends removed, joined by newlines: the block
    runs from a scene-start line up to, and without, the next line that
    starts with the close marker. *)
Theorem C4_scene_text_is_trimmed_block (text : string) :
  exists eps flat,
    extract_episodes_from_text text = Returned (eps, flat)
    /\ (forall rec, In rec flat ->
          scene_of_block trimmed (str_split newline text) (scene rec))
    /\ (forall id r s, get eps id = Some r -> In s (scenes r) ->
          scene_of_block trimmed (str_split newline text) s).
Proof.
  destruct (run_invariant scenes_from_blocks step_scenes_from_blocks
              (str_split newline text) [] init init_scenes_from_blocks)
    as (st & Hrun & _ & _ & Hflat & Heps).
  exists (episodes st), (scenes_with_episodes st). split.
  - unfold extract_episodes_from_text. now rewrite Hrun.
  - split; assumption.
Qed.

(** C4, as the claim states it, fails: the committed text is not the lines
    of any block of the input joined verbatim, because every line is
    trimmed before it is buffered. *)
Lemma C4_scene_text_not_verbatim :
  ~ (forall text eps flat,
       extract_episodes_from_text text = Returned (eps, flat) ->
       forall rec, In rec flat ->
         scene_of_block verbatim (str_split newline text) (scene rec)).
Proof.
  intros H.
  specialize (H indented_transcript _ _ eq_refl _ (or_introl eq_refl)).
  destruct H as (pre & block & close & post & Hl & Hhd & _ & _ & Ht).
  vm_compute in Hl.
  destruct pre as [|p0 [|p1 [|p2 [|p3 pre]]]]; simpl in Hl;
    destruct block as [|b0 [|b1 [|b2 block]]]; simpl in Hl;
    try discriminate Hl;
    injection Hl; intros; subst; try discriminate Hhd;
    vm_compute in Ht; discriminate Ht.
Qed.

(** ** The worked example (claim C3) *)

Import Networks.

(** C3, as the claim states it, fails: at threshold 50 the record
    [(A,C,40)] is dropped, so the graph has no edge between A and C, and C
    is not a node. *)
Lemma C3_example_as_stated_fails :
  ~ (let g := load_data example_rows 50 in
     nx.edge_weight g "A" "B" = Some 60%Z
     /\ nx.edge_weight g "A" "C" = Some 40%Z
     /\ List.length (nx.edges g) = 2
     /\ top_strongest_pairs g 1 = [(("A", "B"), 60%Z)]
     /\ shortest_path g "B" "C" = Returned None).
Proof. intros (_ & H & _). vm_compute in H. discriminate H. Qed.

(** C3 (amended): for the records [(A,B,60), (B,C,5), (A,C,40)] and the
    threshold 50 the graph has the two nodes A and B and the single edge
    A-B of weight 60; the strongest pair is [((A,B),60)]; and the path
    query from B to C raises [NodeNotFound], C being no node of the graph. *)
Theorem C3_example :
  let g := load_data example_rows 50 in
  g = [("A", [("B", 60%Z)]); ("B", [("A", 60%Z)])]
  /\ nx.edges g = [("A", "B", 60%Z)]
  /\ top_strongest_pairs g 1 = [(("A", "B"), 60%Z)]
  /\ nx.has_node g "C" = false
  /\ shortest_path g "B" "C" = Raised NodeNotFound.
Proof. repeat split. Qed.

(** ** Character statistics (claim C2) *)

Lemma fold_left_max_spec {A : Type} (key : A -> Z) (l : list A) (x : A) :
  let m := fold_left (fun best y => if (key best <? key y)%Z then y else best)
                     l x in
  In m (x :: l) /\ Forall (fun y => (key y <= key m)%Z) (x :: l).
Proof.
  revert x. induction l as [|y l IH]; intros x; simpl.
  - split; [now left | repeat constructor; lia].
  - destruct (IH (if (key x <? key y)%Z then y else x)) as [Hin Hall].
    simpl in Hin, Hall. inversion Hall as [|? ? Hhead Htail]; subst.
    split.
    + destruct Hin as [Hin|Hin]; [|now right; right].
      rewrite <- Hin. destruct (key x <? key y)%Z; [right; now left | now left].
    + destruct (key x <? key y)%Z eqn:E.
      * apply Z.ltb_lt in E. repeat constructor; trivial; lia.
      * apply Z.ltb_ge in E. repeat constructor; trivial; lia.
Qed.

Lemma py_max_spec {A : Type} (key : A -> Z) (l : list A) :
  l <> [] ->
  exists m, py_max key l = Returned m
            /\ In m l /\ Forall (fun y => (key y <= key m)%Z) l.
Proof.
  destruct l as [|x l]; [congruence|]. intros _.
  eexists. split; [reflexivity|]. apply fold_left_max_spec.
Qed.

Lemma edges_of_single (n : string) (nbrs : dict Z) :
  nx.edges_of [] [(n, nbrs)] = map (fun '(nbr, w) => (n, nbr, w)) nbrs.
Proof.
  simpl. rewrite app_nil_r. f_equal.
  induction nbrs as [|[k w] r IH]; simpl; congruence.
Qed.

Lemma edges_nbunch_node (G : nx.Graph) (c : string) (nbrs : dict Z) :
  get G c = Some nbrs ->
  map (fun e => snd e) (nx.edges_nbunch G c) = map snd nbrs.
Proof.
  intros Hg. unfold nx.edges_nbunch, nx.nbunch_iter, mem. rewrite Hg.
  cbn [nx.fromkeys fold_left set keys map fst flat_map]. rewrite Hg.
  cbn [app]. rewrite edges_of_single, map_map.
  apply map_ext. now intros [k w].
Qed.

(** C2, as the claim states it, fails: there is no failure variant that
    [character_stats] reports for the characters without edge.  It raises
    whatever the failing operation raises, [KeyError] from the lookup of a
    name that is not a node and [ValueError] from the maximum over the empty
    neighbourhood of an isolated node. *)
Lemma C2_no_single_failure_variant :
  ~ (exists e : exn,
       forall (G : nx.Graph) (c : string),
         nx.neighbors G c = [] -> character_stats G c = Raised e).
Proof.
  intros (e & H).
  pose proof (H [] "Jay" eq_refl) as H1.
  pose proof (H [("Jay", [])] "Jay" eq_refl) as H2.
  vm_compute in H1, H2. congruence.
Qed.

(** C2 (amended): a character with no neighbour makes [character_stats]
    raise an exception and never return a default record: [KeyError] when
    the character is not a node, [ValueError], from the maximum of nothing,
    when it is a node without edge.  A character with a neighbour gets the
    record: the sum of the weights of its edges, a neighbour of largest
    weight, the number of neighbours and the family. *)
Theorem C2_character_stats (G : nx.Graph) (c : string) :
  (nx.neighbors G c = [] ->
   (nx.has_node G c = false /\ character_stats G c = Raised KeyError)
   \/ (nx.has_node G c = true /\ character_stats G c = Raised ValueError))
  /\ (nx.neighbors G c <> [] ->
      exists nbrs s,
        get G c = Some nbrs
        /\ character_stats G c = Returned s
        /\ total_scenes s = py_sum (map snd nbrs)
        /\ In (top_co_character s) nbrs
        /\ Forall (fun x => (snd x <= snd (top_co_character s))%Z) nbrs
        /\ unique_co_appearances s = List.length nbrs
        /\ family s = get_family c).
Proof.
  unfold nx.neighbors, nx.has_node, mem, character_stats.
  destruct (get G c) as [nbrs|] eqn:Hg.
  - split.
    + intros Hn. right. split; [reflexivity|].
      destruct nbrs; [reflexivity | discriminate Hn].
    + intros Hn. assert (Hne : nbrs <> []) by (intros ->; now apply Hn).
      destruct (py_max_spec snd nbrs Hne) as (m & Hm & Hin & Hall).
      rewrite Hm. cbn [bind].
      eexists nbrs, _. split; [reflexivity|]. split; [reflexivity|].
      cbn [total_scenes top_co_character unique_co_appearances family].
      rewrite (edges_nbunch_node _ _ _ Hg). auto.
  - split; [intros _; left; split; reflexivity|].
    intros H. now elim H.
Qed.

(** ** Sorting and slicing *)

Lemma In_firstn {A : Type} (n : nat) (l : list A) (x : A) :
  In x (firstn n l) -> In x l.
Proof.
  intros H. rewrite <- (firstn_skipn n l). apply in_or_app. now left.
Qed.

Lemma In_skipn {A : Type} (n : nat) (l : list A) (x : A) :
  In x (skipn n l) -> In x l.
Proof.
  intros H. rewrite <- (firstn_skipn n l). apply in_or_app. now right.
Qed.

Section Sorting.
Context {A : Type} (key : A -> Z).

Local Abbreviation desc := (desc key).

Lemma insert_desc_perm (x : A) (l : list A) :
  Permutation (insert_desc key x l) (x :: l).
Proof.
  induction l as [|y r IH]; simpl; [reflexivity|].
  destruct (key x <? key y)%Z; [|reflexivity].
  rewrite IH. apply perm_swap.
Qed.

Lemma sorted_desc_perm (l : list A) : Permutation (sorted_desc key l) l.
Proof.
  induction l as [|x r IH]; simpl; [reflexivity|].
  rewrite insert_desc_perm. now constructor.
Qed.

Lemma insert_desc_sorted (x : A) (l : list A) :
  StronglySorted desc l -> StronglySorted desc (insert_desc key x l).
Proof.
  induction 1 as [|y r Hs IH Hy]; simpl.
  - repeat constructor.
  - destruct (key x <? key y)%Z eqn:E.
    + apply Z.ltb_lt in E. constructor; [assumption|].
      apply (Permutation_Forall (Permutation_sym (insert_desc_perm x r))).
      constructor; [unfold desc; lia | assumption].
    + apply Z.ltb_ge in E. constructor; [now constructor|].
      constructor; [exact E|].
      eapply Forall_impl; [|exact Hy]. unfold desc. intros z Hz. lia.
Qed.

Lemma sorted_desc_sorted (l : list A) : StronglySorted desc (sorted_desc key l).
Proof.
  induction l as [|x r IH]; simpl; [constructor|].
  now apply insert_desc_sorted.
Qed.

Lemma firstn_sorted (n : nat) (l : list A) :
  StronglySorted desc l -> StronglySorted desc (firstn n l).
Proof.
  intros H. revert n. induction H as [|y r Hs IH Hy]; intros [|n]; simpl;
    try constructor.
  - apply IH.
  - apply Forall_forall. intros z Hz. apply In_firstn in Hz.
    revert z Hz. now apply Forall_forall.
Qed.

Lemma slice_to_sorted (n : Z) (l : list A) :
  StronglySorted desc l -> StronglySorted desc (slice_to l n).
Proof. intros H. unfold slice_to. destruct (n <? 0)%Z; now apply firstn_sorted. Qed.

(** The items left out by a slice of a sorted list come after the items
    kept. *)
Lemma firstn_skipn_desc (n : nat) (l : list A) :
  StronglySorted desc l ->
  forall a b, In a (firstn n l) -> In b (skipn n l) -> desc a b.
Proof.
  intros H. revert n. induction H as [|y r Hs IH Hy]; intros [|n] a b;
    simpl; try tauto.
  intros [<-|Ha] Hb.
  - apply In_skipn in Hb. revert b Hb. now apply Forall_forall.
  - eauto.
Qed.
End Sorting.

Lemma slice_to_length {A : Type} (l : list A) (n : Z) :
  Z.of_nat (List.length (slice_to l n))
  = Z.max 0 (Z.min (Z.of_nat (List.length l))
                   (if (n <? 0)%Z then Z.of_nat (List.length l) + n else n)).
Proof.
  unfold slice_to. destruct (n <? 0)%Z eqn:E; rewrite length_firstn; lia.
Qed.

Lemma slice_to_prefix {A : Type} (l : list A) (n : Z) :
  exists rest, l = slice_to l n ++ rest
               /\ (Z.of_nat (List.length l) <= n -> rest = [])%Z.
Proof.
  unfold slice_to. destruct (n <? 0)%Z eqn:E.
  - eexists. split; [symmetry; apply firstn_skipn|].
    apply Z.ltb_lt in E. lia.
  - exists (skipn (Z.to_nat n) l). split; [symmetry; apply firstn_skipn|].
    intros H. apply skipn_all2. lia.
Qed.

(** ** The most connected characters (claim C5) *)

Lemma degree_length (G : nx.Graph) : List.length (nx.degree G) = List.length G.
Proof. unfold nx.degree. apply length_map. Qed.

(** C5, as the claim states it, fails: a negative [n] does not give the
    empty list, it leaves out the last [-n] entries. *)
Lemma C5_negative_n_not_empty :
  ~ (forall (G : nx.Graph) (n : Z),
       (n <= 0)%Z -> top_connected_characters G n = []).
Proof.
  intros H.
  specialize (H (load_data example_rows 1) (-1)%Z ltac:(lia)).
  vm_compute in H. discriminate H.
Qed.

(** C5 (amended): [top_connected_characters] returns a prefix of the
    nodes with their degrees ordered by non-increasing degree; what it
    leaves out has no larger degree than what it keeps.  For [n >= 0] the prefix has [min(n, |nodes|)]
    entries: all nodes when [n] is at least their number, none when [n] is
    0.  For [n < 0] it has [max(0, |nodes| + n)] entries: the last [-n]
    entries are left out. *)
Theorem C5_top_connected (G : nx.Graph) (n : Z) :
  let r := top_connected_characters G n in
  StronglySorted (desc snd) r
  /\ (exists rest,
        Permutation (r ++ rest) (nx.degree G)
        /\ (forall a b, In a r -> In b rest -> desc snd a b)
        /\ (Z.of_nat (List.length G) <= n -> rest = [])%Z)
  /\ Z.of_nat (List.length r)
     = (if (n <? 0)%Z then Z.max 0 (Z.of_nat (List.length G) + n)
        else Z.min n (Z.of_nat (List.length G)))
  /\ (n = 0%Z -> r = []).
Proof.
  cbv zeta. unfold top_connected_characters.
  pose proof (sorted_desc_sorted snd (nx.degree G)) as Hs.
  pose proof (sorted_desc_perm snd (nx.degree G)) as Hp.
  set (sorted_degrees := sorted_desc snd (nx.degree G)) in *.
  assert (Hlen : List.length sorted_degrees = List.length G).
  { rewrite (Permutation_length Hp). apply degree_length. }
  split; [now apply slice_to_sorted|]. split; [|split].
  - destruct (slice_to_prefix sorted_degrees n) as (rest & Hr & Hall).
    exists rest. split; [now rewrite <- Hr|]. split.
    + unfold slice_to in *.
      set (k := if (n <? 0)%Z
                then Z.to_nat (Z.of_nat (List.length sorted_degrees) + n)
                else Z.to_nat n) in *.
      assert (Hk : (if (n <? 0)%Z
                    then firstn (Z.to_nat (Z.of_nat (List.length sorted_degrees) + n))
                                sorted_degrees
                    else firstn (Z.to_nat n) sorted_degrees)
                   = firstn k sorted_degrees)
        by (unfold k; now destruct (n <? 0)%Z).
      rewrite Hk in *.
      assert (rest = skipn k sorted_degrees).
      { rewrite <- (firstn_skipn k sorted_degrees) in Hr at 1.
        now apply app_inv_head in Hr. }
      subst rest. now apply firstn_skipn_desc.
    + now rewrite <- Hlen.
  - rewrite slice_to_length, Hlen. destruct (n <? 0)%Z eqn:E.
    + apply Z.ltb_lt in E. lia.
    + apply Z.ltb_ge in E. lia.
  - intros ->. reflexivity.
Qed.

(** ** Graphs built by [add_edge] *)

Lemma eqb_false_ne (a b : string) : a <> b -> String.eqb a b = false.
Proof. apply String.eqb_neq. Qed.

Section GraphFacts.
Implicit Types (G : nx.Graph) (u v a b : string) (w : Z).

Lemma get_add_node_other G u a :
  a <> u -> get (nx.add_node G u) a = get G a.
Proof.
  intros Hn. unfold nx.add_node. destruct (mem G u); [reflexivity|].
  apply get_set_other. congruence.
Qed.

Lemma get_add_node_same G u :
  get (nx.add_node G u) u
  = match get G u with Some nbrs => Some nbrs | None => Some [] end.
Proof.
  unfold nx.add_node, mem. destruct (get G u) as [nbrs|] eqn:E.
  - exact E.
  - apply get_set_same.
Qed.

Lemma mem_add_node G u a :
  mem (nx.add_node G u) a = String.eqb u a || mem G a.
Proof.
  destruct (string_dec u a) as [<-|Hn].
  - rewrite String.eqb_refl. unfold mem at 1. rewrite get_add_node_same.
    now destruct (get G u).
  - rewrite (eqb_false_ne _ _ Hn). unfold mem.
    rewrite get_add_node_other by congruence. reflexivity.
Qed.

Lemma edge_weight_add_node G u a b :
  nx.edge_weight (nx.add_node G u) a b = nx.edge_weight G a b.
Proof.
  unfold nx.edge_weight. destruct (string_dec a u) as [->|Hn].
  - rewrite get_add_node_same. now destruct (get G u).
  - now rewrite get_add_node_other.
Qed.

Lemma NoDup_keys_add_node G u :
  NoDup (keys G) -> NoDup (keys (nx.add_node G u)).
Proof.
  intros H. unfold nx.add_node. destruct (mem G u); [assumption|].
  now apply NoDup_keys_set.
Qed.

Lemma get_adj_set G u v w a :
  mem G u = true ->
  get (nx.adj_set G u v w) a
  = if String.eqb u a
    then option_map (fun nbrs => set nbrs v w) (get G u)
    else get G a.
Proof.
  unfold nx.adj_set, mem. destruct (get G u) as [nbrs|] eqn:E;
    [intros _ | discriminate].
  destruct (string_dec u a) as [<-|Hn].
  - now rewrite String.eqb_refl, get_set_same.
  - now rewrite (eqb_false_ne _ _ Hn), get_set_other.
Qed.

Lemma mem_adj_set G u v w a :
  mem G u = true -> mem (nx.adj_set G u v w) a = mem G a.
Proof.
  intros Hu. unfold mem at 1 2. rewrite get_adj_set by assumption.
  destruct (String.eqb u a) eqn:E; [|reflexivity].
  apply String.eqb_eq in E. subst a. unfold mem in Hu.
  now destruct (get G u).
Qed.

Lemma keys_adj_set G u v w : keys (nx.adj_set G u v w) = keys G.
Proof.
  unfold nx.adj_set. destruct (get G u) eqn:E; [|reflexivity].
  apply keys_set_present. unfold mem. now rewrite E.
Qed.

Lemma edge_weight_adj_set G u v w a b :
  mem G u = true ->
  nx.edge_weight (nx.adj_set G u v w) a b
  = if String.eqb u a && String.eqb v b then Some w
    else nx.edge_weight G a b.
Proof.
  intros Hu. unfold nx.edge_weight. rewrite get_adj_set by assumption.
  unfold mem in Hu. destruct (get G u) as [nbrs|] eqn:E; [|discriminate].
  destruct (String.eqb u a) eqn:Ea; cbn [andb option_map]; [|reflexivity].
  apply String.eqb_eq in Ea. subst a. rewrite E.
  destruct (string_dec v b) as [<-|Hn].
  - now rewrite String.eqb_refl, get_set_same.
  - now rewrite (eqb_false_ne _ _ Hn), get_set_other.
Qed.

Lemma mem_add_edge G u v w a :
  mem (nx.add_edge G u v w) a = String.eqb u a || String.eqb v a || mem G a.
Proof.
  unfold nx.add_edge.
  assert (Hu : mem (nx.add_node (nx.add_node G u) v) u = true)
    by (rewrite !mem_add_node, String.eqb_refl; apply orb_true_r).
  assert (Hv : mem (nx.add_node (nx.add_node G u) v) v = true)
    by (rewrite mem_add_node, String.eqb_refl; reflexivity).
  rewrite mem_adj_set by (now rewrite mem_adj_set).
  rewrite mem_adj_set by assumption.
  rewrite !mem_add_node.
  destruct (String.eqb u a), (String.eqb v a); reflexivity.
Qed.

(** After [add_edge] the weight of the pair, in both directions, is the new
    one and every other weight is unchanged. *)
Lemma edge_weight_add_edge G u v w a b :
  nx.edge_weight (nx.add_edge G u v w) a b
  = if (String.eqb u a && String.eqb v b) || (String.eqb v a && String.eqb u b)
    then Some w
    else nx.edge_weight G a b.
Proof.
  unfold nx.add_edge.
  assert (Hu : mem (nx.add_node (nx.add_node G u) v) u = true)
    by (rewrite !mem_add_node, String.eqb_refl; apply orb_true_r).
  assert (Hv : mem (nx.add_node (nx.add_node G u) v) v = true)
    by (rewrite mem_add_node, String.eqb_refl; reflexivity).
  rewrite edge_weight_adj_set by (now rewrite mem_adj_set).
  rewrite edge_weight_adj_set by assumption.
  rewrite !edge_weight_add_node.
  destruct (String.eqb v a && String.eqb u b),
           (String.eqb u a && String.eqb v b); reflexivity.
Qed.

Lemma keys_add_edge G u v w a :
  In a (keys (nx.add_edge G u v w)) <-> a = u \/ a = v \/ In a (keys G).
Proof.
  rewrite <- !mem_In, mem_add_edge, !orb_true_iff, !String.eqb_eq.
  intuition congruence.
Qed.

Lemma add_edge_well_formed G u v w :
  nx.well_formed G -> nx.well_formed (nx.add_edge G u v w).
Proof.
  intros (Hk & Hn & Hsym). split; [|split].
  - unfold nx.add_edge. rewrite !keys_adj_set.
    now apply NoDup_keys_add_node, NoDup_keys_add_node.
  - intros a nbrs. unfold nx.add_edge.
    assert (Hu : mem (nx.add_node (nx.add_node G u) v) u = true)
      by (rewrite !mem_add_node, String.eqb_refl; apply orb_true_r).
    assert (Hv : mem (nx.add_node (nx.add_node G u) v) v = true)
      by (rewrite mem_add_node, String.eqb_refl; reflexivity).
    assert (Hbase : forall x nb,
              get (nx.add_node (nx.add_node G u) v) x = Some nb ->
              NoDup (keys nb)).
    { intros x nb. destruct (string_dec x v) as [->|Hxv].
      - rewrite get_add_node_same. destruct (string_dec v u) as [->|Hvu].
        + rewrite get_add_node_same.
          destruct (get G u) eqn:E; intros [= <-]; [eauto | constructor].
        + rewrite get_add_node_other by assumption.
          destruct (get G v) eqn:E; intros [= <-]; [eauto | constructor].
      - rewrite get_add_node_other by assumption.
        destruct (string_dec x u) as [->|Hxu].
        + rewrite get_add_node_same.
          destruct (get G u) eqn:E; intros [= <-]; [eauto | constructor].
        + rewrite get_add_node_other by assumption. eauto. }
    assert (Hmid : forall x nb,
              get (nx.adj_set (nx.add_node (nx.add_node G u) v) u v w) x
              = Some nb -> NoDup (keys nb)).
    { intros x nb. rewrite get_adj_set by assumption.
      destruct (String.eqb u x); [|apply Hbase].
      destruct (get _ u) as [nb0|] eqn:E; [|discriminate].
      intros [= <-]. apply NoDup_keys_set. eauto. }
    rewrite get_adj_set by (now rewrite mem_adj_set).
    destruct (String.eqb v a); [|apply Hmid].
    destruct (get _ v) as [nb0|] eqn:E; [|discriminate].
    intros [= <-]. apply NoDup_keys_set. eauto.
  - intros a b x. rewrite !edge_weight_add_edge.
    rewrite (orb_comm (String.eqb u b && String.eqb v a)).
    rewrite (andb_comm (String.eqb u b)), (andb_comm (String.eqb v b)).
    destruct (String.eqb u a && String.eqb v b || String.eqb v a && String.eqb u b);
      [trivial | apply Hsym].
Qed.

Lemma empty_well_formed : nx.well_formed nx.empty.
Proof.
  split; [constructor|]. split; [intros u nbrs H; discriminate H|].
  intros u v w H. discriminate H.
Qed.

(** In a well-formed graph a neighbour is a node. *)
Lemma adjacent_iff G u v :
  nx.adjacent G u v <-> nx.has_edge G u v = true.
Proof.
  unfold nx.adjacent, nx.neighbors, nx.has_edge, nx.edge_weight.
  destruct (get G u) as [nbrs|]; [|split; [intros [] | discriminate]].
  rewrite <- mem_In. unfold mem. reflexivity.
Qed.

Lemma has_edge_sym G u v :
  nx.well_formed G -> nx.has_edge G u v = true -> nx.has_edge G v u = true.
Proof.
  intros (_ & _ & Hsym). unfold nx.has_edge.
  destruct (nx.edge_weight G u v) as [w|] eqn:E; [|discriminate].
  now rewrite (Hsym _ _ _ E).
Qed.

Lemma adjacent_sym G u v :
  nx.well_formed G -> nx.adjacent G u v -> nx.adjacent G v u.
Proof. rewrite !adjacent_iff. apply has_edge_sym. Qed.

Lemma adjacent_node_l G u v : nx.adjacent G u v -> nx.has_node G u = true.
Proof.
  unfold nx.adjacent, nx.neighbors, nx.has_node, mem.
  destruct (get G u); [reflexivity | intros []].
Qed.

Lemma adjacent_node_r G u v :
  nx.well_formed G -> nx.adjacent G u v -> nx.has_node G v = true.
Proof. intros Hwf H. eapply adjacent_node_l, adjacent_sym; eauto. Qed.
End GraphFacts.

(** ** Graphs built by [load_data] *)

Lemma add_rows_well_formed (data : list row) (m : Z) :
  forall G, nx.well_formed G -> nx.well_formed (add_rows G data m).
Proof.
  induction data as [|r data IH]; intros G HG; [exact HG|].
  apply IH. destruct (Scenes_Together r >=? m)%Z; [|exact HG].
  now apply add_edge_well_formed.
Qed.

Lemma load_data_well_formed (data : list row) (m : Z) :
  nx.well_formed (load_data data m).
Proof. apply add_rows_well_formed, empty_well_formed. Qed.

Lemma has_edge_add_edge (G : nx.Graph) (u v a b : string) (w : Z) :
  nx.has_edge (nx.add_edge G u v w) a b
  = (String.eqb u a && String.eqb v b) || (String.eqb v a && String.eqb u b)
    || nx.has_edge G a b.
Proof.
  unfold nx.has_edge. rewrite edge_weight_add_edge.
  now destruct (String.eqb u a && String.eqb v b || String.eqb v a && String.eqb u b).
Qed.

(** The edges of the graph are the pairs joined by a row that reaches the
    threshold. *)
Lemma has_edge_add_rows (data : list row) (m : Z) (a b : string) :
  forall G,
    nx.has_edge (add_rows G data m) a b = true
    <-> nx.has_edge G a b = true \/ kept data m a b.
Proof.
  induction data as [|r data IH]; intros G.
  - simpl. split; [now left|]. intros [H|(r & [] & _)]. exact H.
  - cbn [add_rows fold_left]. fold (add_rows
      (if (Scenes_Together r >=? m)%Z
       then nx.add_edge G (Character_1 r) (Character_2 r) (Scenes_Together r)
       else G) data m).
    rewrite IH. unfold kept.
    destruct (Scenes_Together r >=? m)%Z eqn:E.
    + apply Z.geb_le in E. rewrite has_edge_add_edge, !orb_true_iff,
        !andb_true_iff, !String.eqb_eq.
      split.
      * intros [[[[H1 H2]|[H1 H2]]|H]|(r' & Hin & Hr)].
        -- right. exists r. split; [now left|]. split; [exact E|]. now left.
        -- right. exists r. split; [now left|]. split; [exact E|]. now right.
        -- now left.
        -- right. exists r'. split; [now right | exact Hr].
      * intros [H|(r' & [<-|Hin] & Hm & Hr)].
        -- left. now right.
        -- left. left. tauto.
        -- right. exists r'. tauto.
    + assert (Hlt : (Scenes_Together r < m)%Z).
      { destruct (Z.geb_spec (Scenes_Together r) m); [discriminate | lia]. }
      split.
      * intros [H|(r' & Hin & Hr)]; [now left|].
        right. exists r'. split; [now right | exact Hr].
      * intros [H|(r' & [<-|Hin] & Hm & Hr)]; [now left | lia |].
        right. exists r'. tauto.
Qed.

Lemma has_edge_load_data (data : list row) (m : Z) (a b : string) :
  nx.has_edge (load_data data m) a b = true <-> kept data m a b.
Proof.
  unfold load_data. rewrite has_edge_add_rows.
  split; [intros [H|H]; [discriminate H | exact H] | now right].
Qed.

(** ** Counting edges *)

Lemma unordered_swap (u v : string) : unordered (u, v) = unordered (v, u).
Proof.
  unfold unordered. simpl.
  destruct (String.leb u v) eqn:E1, (String.leb v u) eqn:E2; trivial.
  - now rewrite (String.leb_antisym _ _ E1 E2).
  - destruct (String.leb_total u v); congruence.
Qed.

Lemma unordered_inv (u v a b : string) :
  unordered (u, v) = unordered (a, b) -> (a, b) = (u, v) \/ (a, b) = (v, u).
Proof.
  unfold unordered. simpl.
  destruct (String.leb u v), (String.leb a b); intros [= -> ->]; auto.
Qed.

Lemma existsb_eqb_false (k : string) (l : list string) :
  existsb (String.eqb k) l = false <-> ~ In k l.
Proof.
  induction l as [|x l IH]; simpl; [tauto|].
  rewrite orb_false_iff, IH, String.eqb_neq. intuition congruence.
Qed.

Lemma In_reported (seen : list string) (n : string) (nbrs : dict Z)
    (u v : string) (w : Z) :
  In (u, v, w) (nx.reported seen n nbrs)
  <-> u = n /\ In (v, w) nbrs /\ ~ In v seen.
Proof.
  unfold nx.reported. rewrite in_map_iff. split.
  - intros ([k x] & [= <- <- <-] & Hin). apply filter_In in Hin as [Hin Hs].
    apply negb_true_iff, existsb_eqb_false in Hs. auto.
  - intros (-> & Hin & Hs). exists (v, w). split; [reflexivity|].
    apply filter_In. split; [assumption|].
    now apply negb_true_iff, existsb_eqb_false.
Qed.

Lemma In_edges_of (l : list (string * dict Z)) :
  forall seen u v w,
    In (u, v, w) (nx.edges_of seen l) ->
    (exists nbrs, In (u, nbrs) l /\ In (v, w) nbrs) /\ ~ In v seen.
Proof.
  induction l as [|[n nb] r IH]; intros seen u v w; simpl; [tauto|].
  fold (nx.reported seen n nb). intros [H|H]%in_app_or.
  - apply In_reported in H as (-> & Hin & Hs). split; [|assumption].
    exists nb. auto.
  - apply IH in H as ((nbrs & Hl & Hin) & Hs). split; [eauto|].
    intros Hv. apply Hs. now right.
Qed.

Lemma reported_pairs_NoDup (seen : list string) (n : string) (nbrs : dict Z) :
  NoDup (keys nbrs) ->
  NoDup (map (fun e => unordered (fst e)) (nx.reported seen n nbrs)).
Proof.
  intros Hnd. unfold nx.reported. rewrite map_map.
  induction nbrs as [|[k x] r IH]; simpl; [constructor|].
  inversion Hnd as [|? ? Hk Hr]; subst.
  destruct (negb (existsb (String.eqb k) seen)); [|now apply IH].
  simpl. constructor; [|now apply IH].
  intros Hin. apply in_map_iff in Hin as ([k' x'] & Heq & Hin).
  apply filter_In in Hin as [Hin _]. simpl in Heq.
  apply Hk. apply unordered_inv in Heq.
  assert (k = k') as -> by (destruct Heq as [[= -> ]|[= -> ->]]; reflexivity).
  change k' with (fst (k', x')). now apply in_map.
Qed.

Lemma edge_pairs_NoDup (l : list (string * dict Z)) :
  forall seen,
    NoDup (keys l) ->
    (forall u nbrs, In (u, nbrs) l -> NoDup (keys nbrs)) ->
    NoDup (map (fun e => unordered (fst e)) (nx.edges_of seen l)).
Proof.
  induction l as [|[n nb] r IH]; intros seen Hk Hn; simpl; [constructor|].
  fold (nx.reported seen n nb). rewrite map_app.
  inversion Hk as [|? ? Hnr Hkr]; subst.
  apply NoDup_app.
  - apply reported_pairs_NoDup. apply (Hn n). now left.
  - apply IH; [assumption|]. intros u nbrs Hin. apply (Hn u). now right.
  - intros p Hp Hq.
    apply in_map_iff in Hp as ([[u v] w] & <- & Hp).
    apply in_map_iff in Hq as ([[u' v'] w'] & Heq & Hq).
    apply In_reported in Hp as (-> & _ & _).
    apply In_edges_of in Hq as ((nbrs & Hl & _) & Hs).
    simpl in Heq. apply unordered_inv in Heq as [[= E1 E2]|[= E1 E2]].
    + apply Hnr. rewrite E1. change u' with (fst (u', nbrs)). now apply in_map.
    + apply Hs. left. exact E1.
Qed.

(** An edge stored in both directions is reported, in one of them. *)
Lemma edge_pair_reported (l : list (string * dict Z)) :
  forall seen u v nu nv wv wu,
    NoDup (keys l) ->
    In (u, nu) l -> In (v, wv) nu ->
    In (v, nv) l -> In (u, wu) nv ->
    ~ In u seen -> ~ In v seen ->
    In (unordered (u, v))
       (map (fun e => unordered (fst e)) (nx.edges_of seen l)).
Proof.
  induction l as [|[n nb] r IH]; intros seen u v nu nv wv wu Hk Hu Huv Hv Hvu Hsu Hsv;
    [destruct Hu|].
  simpl. fold (nx.reported seen n nb). rewrite map_app. apply in_or_app.
  inversion Hk as [|? ? Hnr Hkr]; subst.
  destruct Hu as [[= -> ->]|Hu].
  - left. apply in_map_iff. exists (u, v, wv). split; [reflexivity|].
    apply In_reported. auto.
  - destruct Hv as [[= -> ->]|Hv].
    + left. apply in_map_iff. exists (v, u, wu).
      split; [simpl; apply unordered_swap|]. apply In_reported. auto.
    + right. apply (IH (n :: seen) u v nu nv wv wu); trivial.
      * intros [->|H]; [|contradiction].
        apply Hnr. change u with (fst (u, nu)). now apply in_map.
      * intros [->|H]; [|contradiction].
        apply Hnr. change v with (fst (v, nv)). now apply in_map.
Qed.

Lemma In_edges_has_edge (G : nx.Graph) (u v : string) (w : Z) :
  nx.well_formed G -> In (u, v, w) (nx.edges G) ->
  nx.edge_weight G u v = Some w.
Proof.
  intros (Hk & Hn & _) Hin.
  apply In_edges_of in Hin as ((nbrs & Hl & Hin) & _).
  apply In_get in Hl; [|assumption].
  unfold nx.edge_weight. rewrite Hl. apply In_get; eauto.
Qed.

Lemma has_edge_In_edge_pairs (G : nx.Graph) (u v : string) :
  nx.well_formed G -> nx.has_edge G u v = true ->
  In (unordered (u, v)) (nx.edge_pairs G).
Proof.
  intros (Hk & Hn & Hsym) He. unfold nx.has_edge in He.
  destruct (nx.edge_weight G u v) as [w|] eqn:E; [|discriminate].
  pose proof (Hsym _ _ _ E) as E'. unfold nx.edge_weight in E, E'.
  destruct (get G u) as [nu|] eqn:Eu; [|discriminate].
  destruct (get G v) as [nv|] eqn:Ev; [|discriminate].
  apply (edge_pair_reported G [] u v nu nv w w); auto using get_In.
Qed.

Lemma edge_pairs_length (G : nx.Graph) :
  List.length (nx.edge_pairs G) = List.length (nx.edges G).
Proof. apply length_map. Qed.

(** A well-formed graph has at most as many edges as a well-formed graph
    that has all of its edges. *)
Lemma edges_length_mono (G1 G2 : nx.Graph) :
  nx.well_formed G1 -> nx.well_formed G2 ->
  (forall u v, nx.has_edge G2 u v = true -> nx.has_edge G1 u v = true) ->
  List.length (nx.edges G2) <= List.length (nx.edges G1).
Proof.
  intros H1 H2 Hsub. rewrite <- !edge_pairs_length.
  apply NoDup_incl_length.
  - destruct H2 as (Hk & Hn & _). apply edge_pairs_NoDup; [assumption|].
    intros u nbrs Hin. apply (Hn u). now apply In_get.
  - intros p Hp. unfold nx.edge_pairs in Hp.
    apply in_map_iff in Hp as ([[u v] w] & <- & Hin). simpl.
    apply has_edge_In_edge_pairs; [assumption|]. apply Hsub.
    unfold nx.has_edge. now rewrite (In_edges_has_edge _ _ _ _ H2 Hin).
Qed.

(** ** Raising the threshold (claim C6) *)

(** C6: for the same rows, the graph built with the larger threshold has
    at most as many edges as the graph built with the smaller one. *)
Theorem C6_threshold_monotone (data : list row) (m1 m2 : Z) :
  (m1 <= m2)%Z ->
  List.length (nx.edges (load_data data m2))
  <= List.length (nx.edges (load_data data m1)).
Proof.
  intros Hm. apply edges_length_mono; try apply load_data_well_formed.
  intros u v. rewrite !has_edge_load_data.
  intros (r & Hin & Hw & Hr). exists r. repeat split; trivial. lia.
Qed.

Lemma C6_threshold_monotone_witness :
  (40 <= 50)%Z
  /\ List.length (nx.edges (load_data example_rows 50))
     <= List.length (nx.edges (load_data example_rows 40)).
Proof.
  split; [lia|]. apply (C6_threshold_monotone example_rows 40 50). lia.
Defined.

(** ** Walks *)

Section Walks.
Variable G : nx.Graph.
Hypothesis G_wf : nx.well_formed G.

Lemma walk_snoc (p : list string) (x : string) :
  nx.walk G p -> nx.has_node G x = true ->
  (p = [] \/ nx.adjacent G (last p x) x) ->
  nx.walk G (p ++ [x]).
Proof.
  induction p as [|u q IH]; intros Hw Hx Hadj.
  - simpl. auto.
  - destruct Hw as (Hu & Hnext & Hq). destruct Hadj as [Hnil|Hadj];
      [discriminate|].
    destruct q as [|v q'].
    + simpl in *. repeat split; trivial.
    + cbn [app nx.walk] in *. split; [exact Hu|]. split; [exact Hnext|].
      apply IH; trivial. right. exact Hadj.
Qed.

Lemma last_default (x d d' : string) (l : list string) :
  last (x :: l) d = last (x :: l) d'.
Proof.
  revert x. induction l as [|y l IH]; intros x; [reflexivity|].
  change (last (y :: l) d = last (y :: l) d'). apply IH.
Qed.

Lemma last_rev_cons (u : string) (q : list string) (d : string) :
  last (rev (u :: q)) d = u.
Proof. simpl. apply last_last. Qed.

Lemma walk_rev (p : list string) : nx.walk G p -> nx.walk G (rev p).
Proof.
  induction p as [|u q IH]; intros Hw; [exact I|].
  destruct Hw as (Hu & Hnext & Hq). simpl.
  apply walk_snoc; [now apply IH | exact Hu |].
  destruct q as [|v q']; [now left|]. right.
  rewrite last_rev_cons. now apply adjacent_sym.
Qed.

Lemma walk_join (a r : list string) (w : string) :
  nx.walk G (a ++ [w]) -> nx.walk G (w :: r) -> nx.walk G (a ++ w :: r).
Proof.
  induction a as [|u a IH]; intros Ha Hr; [exact Hr|].
  destruct Ha as (Hu & Hnext & Ha). cbn [app nx.walk].
  split; [exact Hu|]. split.
  - destruct a; exact Hnext.
  - now apply IH.
Qed.

(** A set of nodes closed under adjacency holds every walk that starts or
    ends in it. *)
Lemma walk_stays (S : string -> Prop) (p : list string) (d : string) :
  (forall u x, S u -> nx.adjacent G u x -> S x) ->
  nx.walk G p -> S (hd d p) -> S (last p d).
Proof.
  intros Hclosed. revert d. induction p as [|u q IH]; intros d Hw Hs;
    [exact Hs|].
  destruct Hw as (_ & Hnext & Hq). destruct q as [|v q']; [exact Hs|].
  change (last (u :: v :: q') d) with (last (v :: q') d).
  apply IH; [exact Hq|]. simpl in *. eauto.
Qed.

Lemma walk_comes_from (S : string -> Prop) (p : list string) (d : string) :
  (forall u x, S u -> nx.adjacent G u x -> S x) ->
  nx.walk G p -> S (last p d) -> S (hd d p).
Proof.
  intros Hclosed Hw Hs.
  assert (Hrev : hd d p = last (rev p) d).
  { destruct p as [|u q]; [reflexivity|]. now rewrite last_rev_cons. }
  rewrite Hrev. apply walk_stays; [exact Hclosed | now apply walk_rev |].
  destruct p as [|u q] using rev_ind; [exact Hs|].
  rewrite rev_app_distr. simpl. now rewrite last_last in Hs.
Qed.

(** ** Search trees *)

Section Tree.
Variable root : string.
Hypothesis root_node : nx.has_node G root = true.

Lemma tree_root_key (d : dict (option string)) :
  nx.search_tree G root d -> In root (keys d).
Proof.
  induction 1 as [|d w p Ht IH Hw Hp Hadj]; [now left|].
  unfold keys. rewrite map_app. apply in_or_app. now left.
Qed.

Lemma tree_keys_NoDup (d : dict (option string)) :
  nx.search_tree G root d -> NoDup (keys d).
Proof.
  induction 1 as [|d w p Ht IH Hw Hp Hadj].
  - repeat constructor. intros [].
  - rewrite <- (set_absent d w (Some p)) by assumption.
    now apply NoDup_keys_set.
Qed.

Lemma tree_keys_nodes (d : dict (option string)) :
  nx.search_tree G root d ->
  forall x, In x (keys d) -> nx.has_node G x = true.
Proof.
  induction 1 as [|d w p Ht IH Hw Hp Hadj]; intros x Hx.
  - destruct Hx as [<-|[]]. exact root_node.
  - unfold keys in Hx. rewrite map_app in Hx.
    apply in_app_or in Hx as [Hx|[<-|[]]]; [now apply IH|].
    eapply adjacent_node_r; eauto.
Qed.

Lemma follow_None (d : dict (option string)) (fuel : nat) :
  nx.follow fuel d None = Returned [].
Proof. now destruct fuel. Qed.

Lemma follow_more (d e : dict (option string)) (fuel : nat)
    (w : option string) (p : list string) :
  nx.follow fuel d w = Returned p ->
  nx.follow fuel (d ++ e) w = Returned p.
Proof.
  revert w p. induction fuel as [|k IH]; intros [x|] p; simpl; trivial;
    try discriminate.
  rewrite get_app. destruct (get d x) as [next|]; [|discriminate].
  destruct (nx.follow k d next) as [q| |] eqn:E; try discriminate.
  now rewrite (IH _ _ E).
Qed.

(** Following the parents from a key leads to the root along a walk and
    needs no more steps than the dict has keys. *)
Lemma follow_tree (d : dict (option string)) :
  nx.search_tree G root d ->
  forall w fuel, In w (keys d) -> List.length d <= fuel ->
    exists p, nx.follow fuel d (Some w) = Returned (w :: p)
              /\ last (w :: p) w = root
              /\ nx.walk G (w :: p).
Proof.
  induction 1 as [|d w0 p0 Ht IH Hw Hp Hadj]; intros w fuel Hin Hfuel.
  - destruct Hin as [<-|[]]. destruct fuel as [|k]; [simpl in Hfuel; lia|].
    exists []. cbn [nx.follow get]. rewrite String.eqb_refl, follow_None.
    simpl. repeat split; trivial.
  - rewrite length_app in Hfuel. simpl in Hfuel.
    unfold keys in Hin. rewrite map_app in Hin.
    apply in_app_or in Hin as [Hin|[Heq|[]]]; [|simpl in Heq; subst w].
    + destruct (IH w fuel Hin ltac:(lia)) as (p & Hf & Hl & Hwalk).
      exists p. split; [now apply follow_more | auto].
    + destruct fuel as [|k]; [lia|].
      apply mem_In in Hp.
      destruct (IH p0 k Hp ltac:(lia)) as (p & Hf & Hl & Hwalk).
      exists (p0 :: p). split; [|split].
      * cbn [nx.follow]. rewrite get_app, (mem_get_none _ _ Hw).
        cbn [get]. rewrite String.eqb_refl.
        rewrite (follow_more _ _ _ _ _ Hf). reflexivity.
      * change (last (p0 :: p) w0 = root).
        now rewrite (last_default p0 w0 p0).
      * cbn [nx.walk]. split; [|split; [|exact Hwalk]].
        -- eapply adjacent_node_r; eauto.
        -- now apply adjacent_sym.
Qed.
End Tree.
End Walks.

(** ** One level of the bidirectional search *)

Section Level.
Variable G : nx.Graph.
Hypothesis G_wf : nx.well_formed G.
Variable root : string.
Hypothesis root_node : nx.has_node G root = true.

(** The dict of the opposite side; it does not change during a level. *)
Variable other : dict (option string).

Local Abbreviation apart := (nx.apart other).
Local Abbreviation grown := nx.grown.

Lemma grown_refl mine fringe : grown mine mine fringe fringe.
Proof. exists []. now rewrite !app_nil_r. Qed.

Lemma grown_trans m1 m2 m3 f1 f2 f3 :
  grown m1 m2 f1 f2 -> grown m2 m3 f2 f3 -> grown m1 m3 f1 f3.
Proof.
  intros (a & Hk & Hf) (b & Hk' & Hf'). exists (a ++ b).
  rewrite Hk', Hk, Hf', Hf, !app_assoc. auto.
Qed.

Lemma grown_keys mine mine' fringe fringe' x :
  grown mine mine' fringe fringe' -> In x (keys mine) -> In x (keys mine').
Proof. intros (a & -> & _) H. apply in_or_app. now left. Qed.

Lemma closed_at_grown mine mine' fringe fringe' u :
  grown mine mine' fringe fringe' ->
  nx.closed_at G mine u -> nx.closed_at G mine' u.
Proof. intros Hg Hc x Hx. eapply grown_keys; eauto. Qed.

Lemma scan_spec (v : string) (nbrs : list string) :
  forall mine fringe,
    nx.search_tree G root mine ->
    In v (keys mine) ->
    (forall x, In x nbrs -> nx.adjacent G v x) ->
    apart mine ->
    match nx.scan v nbrs mine other fringe with
    | (mine', _, Some w) =>
        nx.search_tree G root mine' /\ In w (keys mine')
        /\ mem other w = true
    | (mine', fringe', None) =>
        nx.search_tree G root mine'
        /\ grown mine mine' fringe fringe'
        /\ (forall x, In x nbrs -> In x (keys mine'))
        /\ apart mine'
    end.
Proof.
  induction nbrs as [|w r IH]; intros mine fringe Ht Hv Hadj Hap.
  - simpl. repeat split; trivial; [apply grown_refl | intros x []].
  - cbn [nx.scan].
    assert (Hstep : exists mine1 fringe1,
              (if mem mine w then (mine, fringe)
               else (set mine w (Some v), fringe ++ [w])) = (mine1, fringe1)
              /\ nx.search_tree G root mine1
              /\ grown mine mine1 fringe fringe1
              /\ In w (keys mine1)
              /\ (mem other w = false -> apart mine1)).
    { destruct (mem mine w) eqn:Ew.
      - exists mine, fringe. repeat split; trivial.
        + apply grown_refl.
        + now apply mem_In.
      - exists (set mine w (Some v)), (fringe ++ [w]).
        rewrite set_absent by assumption.
        assert (Hk : keys (mine ++ [(w, Some v)]) = keys mine ++ [w])
          by (unfold keys; now rewrite map_app).
        split; [reflexivity|]. split; [|split; [|split]].
        + constructor; trivial; [now apply mem_In | apply Hadj; now left].
        + now exists [w].
        + rewrite Hk. apply in_or_app. right. now left.
        + intros Ho x Hx. rewrite Hk in Hx.
          apply in_app_or in Hx as [Hx|[<-|[]]]; [now apply Hap | exact Ho]. }
    destruct Hstep as (mine1 & fringe1 & -> & Ht1 & Hg1 & Hw1 & Hap1).
    destruct (mem other w) eqn:Eo; [auto|].
    specialize (IH mine1 fringe1 Ht1 (grown_keys _ _ _ _ _ Hg1 Hv)
                   (fun x Hx => Hadj x (or_intror Hx)) (Hap1 eq_refl)).
    destruct (nx.scan v r mine1 other fringe1) as [[mine' fringe'] [w'|]];
      [exact IH|].
    destruct IH as (Ht' & Hg' & Hin' & Hap').
    split; [exact Ht'|]. split; [eapply grown_trans; eauto|].
    split; [|exact Hap'].
    intros x [<-|Hx]; [eapply grown_keys; eauto | now apply Hin'].
Qed.

Lemma expand_spec (level : list string) :
  forall mine fringe,
    nx.search_tree G root mine ->
    (forall x, In x level -> In x (keys mine)) ->
    apart mine ->
    match nx.expand G level mine other fringe with
    | (mine', _, Some w) =>
        nx.search_tree G root mine' /\ In w (keys mine')
        /\ mem other w = true
    | (mine', fringe', None) =>
        nx.search_tree G root mine'
        /\ grown mine mine' fringe fringe'
        /\ (forall v, In v level -> nx.closed_at G mine' v)
        /\ apart mine'
    end.
Proof.
  induction level as [|v r IH]; intros mine fringe Ht Hlevel Hap.
  - simpl. repeat split; trivial; [apply grown_refl | intros v []].
  - cbn [nx.expand].
    pose proof (scan_spec v (nx.neighbors G v) mine fringe Ht
                  (Hlevel v (or_introl eq_refl)) (fun x Hx => Hx) Hap) as Hs.
    destruct (nx.scan v (nx.neighbors G v) mine other fringe)
      as [[mine1 fringe1] [w|]]; [exact Hs|].
    destruct Hs as (Ht1 & Hg1 & Hin1 & Hap1).
    specialize (IH mine1 fringe1 Ht1
                   (fun x Hx => grown_keys _ _ _ _ _ Hg1
                                  (Hlevel x (or_intror Hx))) Hap1).
    destruct (nx.expand G r mine1 other fringe1) as [[mine' fringe'] [w|]];
      [exact IH|].
    destruct IH as (Ht' & Hg' & Hcl' & Hap').
    split; [exact Ht'|]. split; [eapply grown_trans; eauto|].
    split; [|exact Hap'].
    intros u [<-|Hu]; [|now apply Hcl'].
    eapply closed_at_grown; [exact Hg'|]. exact Hin1.
Qed.

(** Expanding the whole fringe either meets the opposite side or leaves the
    side in order, with as many new keys as the new fringe has nodes. *)
Lemma expand_level (mine : dict (option string)) (fringe : list string) :
  nx.side_ok G root mine fringe ->
  apart mine ->
  match nx.expand G fringe mine other [] with
  | (mine', _, Some w) =>
      nx.search_tree G root mine' /\ In w (keys mine')
      /\ mem other w = true
  | (mine', fringe', None) =>
      nx.side_ok G root mine' fringe'
      /\ apart mine'
      /\ List.length mine' = List.length mine + List.length fringe'
  end.
Proof.
  intros (Ht & Hfr & Hcl) Hap.
  pose proof (expand_spec fringe mine [] Ht Hfr Hap) as He.
  destruct (nx.expand G fringe mine other []) as [[mine' fringe'] [w|]];
    [exact He|].
  destruct He as (Ht' & Hg' & Hcl' & Hap').
  split; [|split; [exact Hap'|]].
  - split; [exact Ht'|]. destruct Hg' as (added & Hk & Hf).
    simpl in Hf. subst fringe'. split.
    + intros x Hx. rewrite Hk. apply in_or_app. now right.
    + intros u Hu. rewrite Hk in Hu.
      apply in_app_or in Hu as [Hu|Hu]; [|now left]. right.
      destruct (Hcl u Hu) as [Hin|Hc]; [now apply Hcl'|].
      intros x Hx. rewrite Hk. apply in_or_app. left. now apply Hc.
  - destruct Hg' as (added & Hk & Hf). simpl in Hf. subst fringe'.
    rewrite <- (length_map fst mine'), <- (length_map fst mine).
    fold (keys mine') (keys mine). now rewrite Hk, length_app.
Qed.
End Level.

(** ** The bidirectional search *)

Lemma apart_sym (a b : dict (option string)) : nx.apart a b -> nx.apart b a.
Proof.
  intros H x Hx. destruct (mem b x) eqn:E; [|reflexivity].
  apply mem_In, H in E. apply mem_In in Hx. congruence.
Qed.

Lemma is_nil_true {A : Type} (l : list A) : nx.is_nil l = true -> l = [].
Proof. destruct l; [reflexivity | discriminate]. Qed.

Lemma is_nil_false {A : Type} (l : list A) :
  nx.is_nil l = false -> 1 <= List.length l.
Proof. destruct l; [discriminate | simpl; lia]. Qed.

Section Search.
Variable G : nx.Graph.
Hypothesis G_wf : nx.well_formed G.
Variables source target : string.
Hypothesis source_node : nx.has_node G source = true.
Hypothesis target_node : nx.has_node G target = true.

(** Two disjoint search trees do not have more keys than the graph has
    nodes. *)
Lemma trees_fit (pred succ : dict (option string)) :
  nx.search_tree G source pred -> nx.search_tree G target succ ->
  nx.apart succ pred ->
  List.length pred + List.length succ <= List.length G.
Proof.
  intros Hp Hs Hap.
  rewrite <- (length_map fst pred), <- (length_map fst succ),
    <- (length_map fst G), <- length_app.
  apply NoDup_incl_length.
  - apply NoDup_app.
    + now apply (tree_keys_NoDup G source).
    + now apply (tree_keys_NoDup G target).
    + intros x Hx Hx'. apply Hap in Hx. apply mem_In in Hx'. congruence.
  - intros x [Hx|Hx]%in_app_or; apply mem_In.
    + now apply (tree_keys_nodes G G_wf source source_node pred).
    + now apply (tree_keys_nodes G G_wf target target_node succ).
Qed.

(** A side whose fringe is empty has reached every node connected to its
    root. *)
Lemma exhausted_side (root : string) (d : dict (option string)) :
  nx.side_ok G root d [] ->
  forall u x, In u (keys d) -> nx.adjacent G u x -> In x (keys d).
Proof.
  intros (_ & _ & Hcl) u x Hu Hx. destruct (Hcl u Hu) as [[]|Hc]. now apply Hc.
Qed.

Lemma no_path_forward (pred succ : dict (option string)) :
  nx.side_ok G source pred [] -> nx.search_tree G target succ ->
  nx.apart succ pred -> ~ nx.connected G source target.
Proof.
  intros Hside Hs Hap (p & Hw & Hhd & Hlast & Hne).
  destruct p as [|u q]; [congruence|]. injection Hhd as ->.
  assert (Ht : In target (keys pred)).
  { rewrite <- Hlast.
    apply (walk_stays G (fun x => In x (keys pred)) (source :: q) source);
      [exact (exhausted_side source pred Hside) | exact Hw |].
    apply (tree_root_key G source). now destruct Hside. }
  apply Hap in Ht. apply (tree_root_key G target), mem_In in Hs. congruence.
Qed.

Lemma no_path_backward (pred succ : dict (option string)) :
  nx.search_tree G source pred -> nx.side_ok G target succ [] ->
  nx.apart succ pred -> ~ nx.connected G source target.
Proof.
  intros Hp Hside Hap (p & Hw & Hhd & Hlast & Hne).
  destruct p as [|u q]; [congruence|]. injection Hhd as ->.
  assert (Hs : In source (keys succ)).
  { change source with (hd source (source :: q)).
    apply (walk_comes_from G G_wf (fun x => In x (keys succ)));
      [exact (exhausted_side target succ Hside) | exact Hw |].
    rewrite Hlast. apply (tree_root_key G target). now destruct Hside. }
  apply mem_In in Hs. apply (tree_root_key G source), Hap in Hp. congruence.
Qed.

(** With enough iterations allowed, the loop either ends with both
    fringes exhausted on one side, and then no walk joins the two nodes, or
    returns a node that both search trees hold. *)
Lemma search_spec (fuel : nat) :
  forall pred succ ff rf,
    nx.side_ok G source pred ff ->
    nx.side_ok G target succ rf ->
    nx.apart succ pred ->
    (nx.is_nil ff || nx.is_nil rf = true /\ 1 <= fuel)
    \/ List.length G + 2 <= fuel + List.length pred + List.length succ ->
    (nx.search fuel G pred succ ff rf = Raised NetworkXNoPath
     /\ ~ nx.connected G source target)
    \/ (exists pred' succ' w,
          nx.search fuel G pred succ ff rf = Returned (pred', succ', w)
          /\ nx.search_tree G source pred'
          /\ nx.search_tree G target succ'
          /\ In w (keys pred') /\ In w (keys succ')).
Proof.
  induction fuel as [|k IH]; intros pred succ ff rf Hf Hr Hap Hfuel.
  { exfalso. destruct Hfuel as [[_ H]|H]; [lia|].
    pose proof (trees_fit pred succ (proj1 Hf) (proj1 Hr) Hap). simpl in H. lia. }
  cbn [nx.search].
  destruct (nx.is_nil ff || nx.is_nil rf) eqn:Enil.
  { left. split; [reflexivity|].
    apply orb_true_iff in Enil as [E|E]; apply is_nil_true in E; subst.
    - eapply no_path_forward; eauto. now destruct Hr.
    - eapply no_path_backward; eauto. now destruct Hf. }
  destruct Hfuel as [[H _]|Hfuel]; [discriminate|].
  pose proof (trees_fit pred succ (proj1 Hf) (proj1 Hr) Hap) as Hfit.
  destruct (Nat.leb (List.length ff) (List.length rf)).
  - pose proof (expand_level G source succ pred ff Hf Hap) as He.
    destruct (nx.expand G ff pred succ []) as [[pred' ff'] [w|]].
    + destruct He as (Ht & Hw & Ho). right. exists pred', succ, w.
      split; [reflexivity|]. repeat split; trivial.
      * now destruct Hr.
      * now apply mem_In.
    + destruct He as (Hf' & Hap' & Hlen). apply IH; trivial.
      destruct (nx.is_nil ff') eqn:E'; [left; split; [reflexivity | lia]|].
      right. apply is_nil_false in E'. lia.
  - pose proof (expand_level G target pred succ rf Hr (apart_sym _ _ Hap))
      as He.
    destruct (nx.expand G rf succ pred []) as [[succ' rf'] [w|]].
    + destruct He as (Ht & Hw & Ho). right. exists pred, succ', w.
      split; [reflexivity|]. repeat split; trivial.
      * now destruct Hf.
      * now apply mem_In.
    + destruct He as (Hr' & Hap' & Hlen). apply IH; trivial.
      * now apply apart_sym.
      * destruct (nx.is_nil rf') eqn:E'.
        -- left. split; [apply orb_true_r | lia].
        -- right. apply is_nil_false in E'. lia.
Qed.

Lemma hd_error_rev (x d : string) (l : list string) :
  hd_error (rev (x :: l)) = Some (last (x :: l) d).
Proof.
  revert x. induction l as [|y l IH]; intros x; [reflexivity|].
  change (rev (x :: y :: l)) with (rev (y :: l) ++ [x]).
  change (last (x :: y :: l) d) with (last (y :: l) d).
  rewrite <- IH. simpl. now destruct (rev l ++ [y]) eqn:E;
    [destruct (rev l); discriminate E|].
Qed.

Lemma last_app_cons (a r : list string) (w d : string) :
  last (a ++ w :: r) d = last (w :: r) d.
Proof.
  induction a as [|x a IH]; [reflexivity|].
  rewrite <- IH. simpl. now destruct (a ++ w :: r) eqn:E;
    [destruct a; discriminate E|].
Qed.

Lemma follow_step (k : nat) (d : dict (option string)) (x : string) :
  nx.follow (S k) d (Some x)
  = match get d x with
    | None => Raised KeyError
    | Some next => p <- nx.follow k d next ;; Returned (x :: p)
    end.
Proof. reflexivity. Qed.

(** From a node held by both trees the path is put together. *)
Lemma path_from_meeting (pred succ : dict (option string)) (w : string) :
  nx.search_tree G source pred -> nx.search_tree G target succ ->
  In w (keys pred) -> In w (keys succ) ->
  exists p,
    (back <- nx.follow (S (List.length pred)) pred (Some w) ;;
     let path := rev back in
     match get succ (last path w) with
     | None => Raised KeyError
     | Some w' =>
         rest <- nx.follow (S (List.length succ)) succ w' ;;
         Returned (path ++ rest)
     end) = Returned p
    /\ nx.path_between G source target p.
Proof.
  intros Hp Hs Hwp Hws.
  destruct (follow_tree G G_wf source source_node pred Hp w
              (S (List.length pred)) Hwp ltac:(lia)) as (b & Hb & Hbl & Hbw).
  destruct (follow_tree G G_wf target target_node succ Hs w
              (S (S (List.length succ))) Hws ltac:(lia)) as (r & Hr & Hrl & Hrw).
  rewrite Hb. cbn [bind]. cbv zeta.
  change (rev (w :: b)) with (rev b ++ [w]). rewrite last_last.
  rewrite follow_step in Hr.
  destruct (get succ w) as [w'|]; [|discriminate].
  destruct (nx.follow (S (List.length succ)) succ w') as [rest| |];
    try discriminate.
  cbn [bind] in *. injection Hr as ->.
  exists ((rev b ++ [w]) ++ r). split; [reflexivity|].
  rewrite <- app_assoc. cbn [app]. repeat split.
  - apply walk_join; [|exact Hrw].
    change (rev b ++ [w]) with (rev (w :: b)). now apply walk_rev.
  - destruct b as [|y b]; [simpl in *; congruence|].
    assert (E : hd_error (rev (y :: b) ++ w :: r) = hd_error (rev (w :: y :: b))).
    { change (rev (w :: y :: b)) with (rev (y :: b) ++ [w]).
      simpl. now destruct (rev b ++ [y]) eqn:E;
        [destruct (rev b); discriminate E|]. }
    rewrite E, (hd_error_rev w w), Hbl. reflexivity.
  - rewrite last_app_cons. now rewrite (last_default w source w).
  - now destruct (rev b).
Qed.

(** [bidirectional_shortest_path] on two nodes: [NetworkXNoPath] when no
    walk joins them, a walk from the first to the second otherwise. *)
Lemma bidirectional_shortest_path_spec :
  (nx.bidirectional_shortest_path G source target = Raised NetworkXNoPath
   /\ ~ nx.connected G source target)
  \/ (exists p,
        nx.bidirectional_shortest_path G source target = Returned p
        /\ nx.path_between G source target p).
Proof.
  unfold nx.bidirectional_shortest_path, nx.bidirectional_pred_succ.
  rewrite source_node, target_node. cbn [negb].
  destruct (String.eqb target source) eqn:E.
  - apply String.eqb_eq in E. right. cbn [bind].
    apply path_from_meeting; try (now left).
    + rewrite E. constructor.
    + rewrite <- E. constructor.
  - apply String.eqb_neq in E.
    destruct (search_spec (S (List.length G)) [(source, None)]
                [(target, None)] [source] [target])
      as [[-> Hno]|(pred & succ & w & -> & Hp & Hs & Hwp & Hws)].
    + split; [constructor|]. split; [intros x Hx; exact Hx|].
      intros u Hu. now left.
    + split; [constructor|]. split; [intros x Hx; exact Hx|].
      intros u Hu. now left.
    + intros x [<-|[]]. unfold mem. simpl.
      now rewrite (eqb_false_ne _ _ E).
    + right. simpl. lia.
    + now left.
    + right. cbn [bind]. now apply path_from_meeting.
Qed.
End Search.

(** ** Path queries (claim C1) *)

(** The bound on the iterations of the search is never what ends a query. *)
Lemma shortest_path_within_bound (G : nx.Graph) (s t : string) :
  nx.well_formed G -> shortest_path G s t <> NoFuel.
Proof.
  intros Hwf. unfold shortest_path, nx.shortest_path.
  destruct (nx.has_node G s) eqn:Hs, (nx.has_node G t) eqn:Ht;
    try (unfold nx.bidirectional_shortest_path; rewrite Hs, ?Ht; discriminate).
  destruct (bidirectional_shortest_path_spec G Hwf s t Hs Ht)
    as [[-> _]|(p & -> & _)]; discriminate.
Qed.

(** C1, as the claim states it, fails: when a name is not a node of the
    graph the query does not return [None], it raises [NodeNotFound], which
    [shortest_path] does not catch. *)
Lemma C1_absent_node_raises :
  ~ (forall (G : nx.Graph) (s t : string),
       nx.well_formed G ->
       nx.has_node G s = false \/ nx.has_node G t = false ->
       shortest_path G s t = Returned None).
Proof.
  intros H.
  specialize (H (load_data example_rows 50) "B" "C"
                (load_data_well_formed _ _) (or_intror eq_refl)).
  vm_compute in H. discriminate H.
Qed.

(** C1 (amended): on a graph as networkx builds them, [shortest_path]
    raises [NodeNotFound] when either name is not a node; returns [None]
    when both are nodes and no walk joins them; and, when a walk joins them,
    returns a walk of the graph that starts at the first node and ends at
    the second.  The search always ends within its bound. *)
Theorem C1_shortest_path (G : nx.Graph) (s t : string) :
  nx.well_formed G ->
  (nx.has_node G s = false \/ nx.has_node G t = false ->
   shortest_path G s t = Raised NodeNotFound)
  /\ (nx.has_node G s = true -> nx.has_node G t = true ->
      ~ nx.connected G s t ->
      shortest_path G s t = Returned None)
  /\ (nx.has_node G s = true -> nx.has_node G t = true ->
      nx.connected G s t ->
      exists p, shortest_path G s t = Returned (Some p)
                /\ nx.path_between G s t p).
Proof.
  intros Hwf. unfold shortest_path, nx.shortest_path. split; [|split].
  - unfold nx.bidirectional_shortest_path.
    intros [Hs|Ht]; rewrite ?Hs, ?Ht; cbn [negb]; [reflexivity|].
    now destruct (negb (nx.has_node G s)).
  - intros Hs Ht Hno.
    destruct (bidirectional_shortest_path_spec G Hwf s t Hs Ht)
      as [[-> _]|(p & _ & Hp)]; [reflexivity|].
    exfalso. apply Hno. now exists p.
  - intros Hs Ht Hyes.
    destruct (bidirectional_shortest_path_spec G Hwf s t Hs Ht)
      as [[_ Hno]|(p & -> & Hp)]; [contradiction|].
    now exists p.
Qed.

Lemma C1_shortest_path_witness :
  nx.well_formed (load_data example_rows 40)
  /\ exists p,
       shortest_path (load_data example_rows 40) "B" "C" = Returned (Some p)
       /\ nx.path_between (load_data example_rows 40) "B" "C" p.
Proof.
  split; [apply load_data_well_formed|].
  apply (C1_shortest_path (load_data example_rows 40) "B" "C"
           (load_data_well_formed _ _)); [reflexivity | reflexivity |].
  exists ["B"; "A"; "C"]. unfold nx.path_between.
  split; [|split; [reflexivity | split; [reflexivity | discriminate]]].
  cbn [nx.walk]. unfold nx.adjacent.
  repeat split; vm_compute; auto.
Defined.

(** * Further properties *)

(** ** The two results of the segmenter agree *)

Lemma scenes_of_app (id : string) (a b : list scene_rec) :
  scenes_of id (a ++ b) = scenes_of id a ++ scenes_of id b.
Proof. unfold scenes_of. now rewrite filter_app, map_app. Qed.

Lemma scene_count_app (a b : dict episode_rec) :
  scene_count (a ++ b) = scene_count a + scene_count b.
Proof. unfold scene_count. now rewrite map_app, list_sum_app. Qed.

(** Adding a scene text to the record of a key adds one to the count. *)
Lemma scene_count_set (eps : dict episode_rec) (e : string)
    (r : episode_rec) (x : string) :
  get eps e = Some r ->
  scene_count (set eps e {| title := title r; scenes := scenes r ++ [x] |})
  = S (scene_count eps).
Proof.
  unfold scene_count.
  induction eps as [|[k r0] eps IH]; simpl; [discriminate|].
  destruct (String.eqb k e).
  - intros [= ->]. simpl. rewrite length_app. simpl. lia.
  - intros H. simpl. rewrite (IH H). lia.
Qed.

Lemma step_linked (st : state) (raw : string) :
  linked st -> exists st', step st raw = Returned st' /\ linked st'.
Proof.
  intros (Hinv & Hsc & Hti & Hcur & Hcount).
  destruct (step_inv st raw Hinv) as (st1 & Hs & Hinv1).
  exists st1. split; [assumption|]. split; [assumption|].
  clear Hinv1. revert Hs. unfold step.
  destruct (is_scene_start (strip raw)) eqn:Estart.
  { intros [= <-]. fields. auto. }
  destruct (in_scene st) eqn:Ein; cbn [andb].
  - destruct (is_scene_end (strip raw)) eqn:Eend.
    + destruct (scene_buffer st) as [|b0 bs] eqn:Eb;
        [intros [= <-]; fields; auto|].
      unfold active.
      destruct (current_episode st) as [e|] eqn:Ece;
        [|intros [= <-]; fields; auto].
      destruct (is_empty e); [intros [= <-]; fields; auto|].
      unfold commit. rewrite Eb.
      destruct (get (episodes st) e) as [r|] eqn:Eg; [|discriminate].
      destruct (Hcur e eq_refl) as (t & Ht).
      intros [= <-]. fields.
      refine (conj _ (conj _ (conj _ _))).
      * intros id. rewrite scenes_of_app, Hsc. unfold scenes_of at 1.
        cbn [filter map episode scene].
        destruct (string_dec e id) as [<-|Hn].
        -- rewrite String.eqb_refl, get_set_same, Eg. reflexivity.
        -- rewrite (eqb_false_ne _ _ Hn), get_set_other by assumption.
           cbn [map]. apply app_nil_r.
      * intros rec [Hin|[<-|[]]]%in_app_or; [now apply Hti|].
        exists t. exact Ht.
      * intros e' _. eauto.
      * rewrite (scene_count_set _ _ _ _ Eg), length_app, Hcount. simpl. lia.
    + destruct (episode_pattern_match (strip raw)) as [[[season ep] t]|] eqn:Em;
        [|intros [= <-]; fields; auto].
      intros [= <-]. fields.
      refine (conj _ (conj Hti (conj _ _))).
      * intros id.
        destruct (mem (episodes st) _) eqn:Emem; [apply Hsc|].
        rewrite set_absent, get_app, Hsc by assumption.
        destruct (get (episodes st) id) as [r|]; [reflexivity|].
        cbn [get]. now destruct (String.eqb _ id).
      * intros e _. eauto.
      * destruct (mem (episodes st) _) eqn:Emem; [exact Hcount|].
        rewrite set_absent, scene_count_app by assumption.
        rewrite Hcount. unfold scene_count. simpl. lia.
  - intros [= <-]. auto.
Qed.

Lemma init_linked : linked init.
Proof.
  split; [apply init_inv|]. split; [reflexivity|].
  split; [intros rec []|]. split; [intros e; discriminate | reflexivity].
Qed.

Lemma run_linked (lines : list string) (st : state) :
  linked st -> exists st', run st lines = Returned st' /\ linked st'.
Proof.
  intros H.
  destruct (run_invariant (fun _ => linked)
              (fun _ st raw => step_linked st raw) lines [] st H)
    as (st' & Hrun & H').
  eauto.
Qed.

(** X1: the flat list, read episode by episode, gives the scene lists of
    the mapping: for every identifier the scene texts of the flat records of
    that episode, in their order, are the scene list stored for it, and
    there are none when the identifier is not in the mapping. *)
Theorem X1_flat_list_by_episode (text id : string) :
  exists eps flat,
    extract_episodes_from_text text = Returned (eps, flat)
    /\ scenes_of id flat
       = match get eps id with
         | Some r => scenes r
         | None => []
         end.
Proof.
  destruct (run_linked (str_split newline text) init init_linked)
    as (st & Hrun & _ & Hsc & _).
  exists (episodes st), (scenes_with_episodes st). split.
  - unfold extract_episodes_from_text. now rewrite Hrun.
  - apply Hsc.
Qed.

(** X2: the scene lists of the mapping hold, together, as many scene
    texts as the flat list has records. *)
Theorem X2_scene_count (text : string) :
  exists eps flat,
    extract_episodes_from_text text = Returned (eps, flat)
    /\ scene_count eps = List.length flat.
Proof.
  destruct (run_linked (str_split newline text) init init_linked)
    as (st & Hrun & _ & _ & _ & _ & Hcount).
  exists (episodes st), (scenes_with_episodes st). split.
  - unfold extract_episodes_from_text. now rewrite Hrun.
  - exact Hcount.
Qed.

Lemma In_scenes_of (id : string) (flat : list scene_rec) (rec : scene_rec) :
  In rec flat -> episode rec = id -> In (scene rec) (scenes_of id flat).
Proof.
  intros Hin He. unfold scenes_of. apply in_map, filter_In.
  split; [assumption|]. now apply String.eqb_eq.
Qed.

(** X3: every record of the flat list belongs to an episode of the
    mapping, its scene text is in that episode's scene list, and it carries
    a title. *)
Theorem X3_flat_record_has_episode (text : string) :
  exists eps flat,
    extract_episodes_from_text text = Returned (eps, flat)
    /\ forall rec, In rec flat ->
         exists r t,
           get eps (episode rec) = Some r
           /\ In (scene rec) (scenes r)
           /\ scene_title rec = Some t.
Proof.
  destruct (run_linked (str_split newline text) init init_linked)
    as (st & Hrun & _ & Hsc & Hti & _).
  exists (episodes st), (scenes_with_episodes st). split.
  - unfold extract_episodes_from_text. now rewrite Hrun.
  - intros rec Hin. destruct (Hti rec Hin) as (t & Ht).
    pose proof (In_scenes_of _ _ _ Hin eq_refl) as Hs.
    rewrite Hsc in Hs.
    destruct (get (episodes st) (episode rec)) as [r|]; [|destruct Hs].
    exists r, t. auto.
Qed.

(** ** Lines that close no scene, lines that open none *)

Lemma str_split_not_nil (sep : ascii) (s : string) : str_split sep s <> [].
Proof.
  destruct s as [|c r]; simpl; [discriminate|].
  destruct (Ascii.eqb c sep); [discriminate|].
  destruct (str_split sep r); discriminate.
Qed.

(** Splitting cuts at every separator. *)
Lemma str_split_app (sep : ascii) (a b : string) :
  str_split sep (a ++ String sep b)%string
  = str_split sep a ++ str_split sep b.
Proof.
  induction a as [|c a IH]; simpl.
  - now rewrite Ascii.eqb_refl.
  - destruct (Ascii.eqb c sep); [now rewrite IH|].
    rewrite IH. pose proof (str_split_not_nil sep a) as Hn.
    destruct (str_split sep a); [contradiction | reflexivity].
Qed.

Lemma run_app (a b : list string) (st : state) :
  run st (a ++ b) = (st' <- run st a ;; run st' b).
Proof.
  revert st. induction a as [|l a IH]; intros st; simpl; [reflexivity|].
  destruct (step st l); simpl; auto.
Qed.

(** Lines none of which is a close line commit nothing: the flat list
    stays, and the mapping only gains identifiers without scenes. *)
Lemma run_no_close (more : list string) :
  forallb (fun l => negb (is_scene_end (strip l))) more = true ->
  forall st, inv st ->
    exists st' new,
      run st more = Returned st'
      /\ scenes_with_episodes st' = scenes_with_episodes st
      /\ episodes st' = episodes st ++ new
      /\ Forall (fun entry => scenes (snd entry) = []) new.
Proof.
  induction more as [|raw more IH]; intros Hall st Hinv.
  - exists st, []. rewrite app_nil_r. auto.
  - cbn [forallb] in Hall. apply andb_true_iff in Hall as [Hraw Hall].
    apply negb_true_iff in Hraw.
    destruct (step_inv st raw Hinv) as (st1 & Hs & Hinv1).
    destruct (IH Hall st1 Hinv1) as (st' & new & Hrun & Hflat & Heps & Hnew).
    assert (H1 : scenes_with_episodes st1 = scenes_with_episodes st
                 /\ exists new1, episodes st1 = episodes st ++ new1
                      /\ Forall (fun entry => scenes (snd entry) = []) new1).
    { clear - Hs Hraw. revert Hs. unfold step. rewrite Hraw, andb_false_r.
      destruct (is_scene_start (strip raw));
        [intros [= <-]; fields; split; [reflexivity|];
         exists []; now rewrite app_nil_r|].
      destruct (in_scene st);
        [|intros [= <-]; split; [reflexivity|];
          exists []; now rewrite app_nil_r].
      destruct (episode_pattern_match (strip raw)) as [[[season ep] t]|];
        [|intros [= <-]; fields; split; [reflexivity|];
          exists []; now rewrite app_nil_r].
      intros [= <-]. fields. split; [reflexivity|].
      destruct (mem (episodes st) _) eqn:Emem.
      - exists []. now rewrite app_nil_r.
      - rewrite set_absent by assumption. eexists. split; [reflexivity|].
        constructor; [reflexivity | constructor]. }
    destruct H1 as (Hflat1 & new1 & Heps1 & Hnew1).
    exists st', (new1 ++ new). cbn [run]. rewrite Hs. cbn [bind].
    split; [assumption|]. split; [congruence|].
    split; [rewrite Heps, Heps1; now rewrite app_assoc|].
    apply Forall_app. auto.
Qed.

(** X4: text added after a newline that holds no line starting, once
    trimmed, with the close marker commits nothing: the flat list is that
    of the text before it, and the mapping is that of the text before it
    followed by identifiers with an empty scene list.  A scene left open at
    the end of the input is lost. *)
Theorem X4_no_close_no_commit (before after : string) :
  no_line is_scene_end after = true ->
  exists eps flat new,
    extract_episodes_from_text before = Returned (eps, flat)
    /\ extract_episodes_from_text (before ++ nl ++ after)%string
       = Returned (eps ++ new, flat)
    /\ Forall (fun entry => scenes (snd entry) = []) new.
Proof.
  intros Hafter.
  destruct (run_inv init (str_split newline before) init_inv)
    as (st & Hrun & Hinv).
  destruct (run_no_close _ Hafter st Hinv)
    as (st' & new & Hrun' & Hflat & Heps & Hnew).
  exists (episodes st), (scenes_with_episodes st), new.
  unfold extract_episodes_from_text at 1. rewrite Hrun. cbn [bind].
  split; [reflexivity|]. split; [|assumption].
  unfold extract_episodes_from_text, nl.
  change (String newline EmptyString ++ after)%string
    with (String newline after).
  rewrite str_split_app, run_app, Hrun. cbn [bind]. rewrite Hrun'.
  cbn [bind]. now rewrite Hflat, Heps.
Qed.

Lemma X4_no_close_no_commit_witness :
  no_line is_scene_end open_tail = true
  /\ exists eps flat new,
       extract_episodes_from_text closed_transcript = Returned (eps, flat)
       /\ extract_episodes_from_text
            (closed_transcript ++ nl ++ open_tail)%string
          = Returned (eps ++ new, flat)
       /\ Forall (fun entry => scenes (snd entry) = []) new.
Proof.
  split; [reflexivity|].
  apply (X4_no_close_no_commit closed_transcript open_tail). reflexivity.
Defined.

Lemma run_no_start (lines : list string) :
  forallb (fun l => negb (is_scene_start (strip l))) lines = true ->
  forall st, in_scene st = false -> run st lines = Returned st.
Proof.
  induction lines as [|raw more IH]; intros Hall st Hout; [reflexivity|].
  cbn [forallb] in Hall. apply andb_true_iff in Hall as [Hraw Hall].
  apply negb_true_iff in Hraw.
  cbn [run]. unfold step. rewrite Hraw, Hout. cbn [andb bind]. now apply IH.
Qed.

(** X5: a text none of whose lines is a scene start (starts, once
    trimmed, with three equals signs and contains Scene) gives the empty
    mapping and the empty list: headers and close markers outside a scene
    are ignored. *)
Theorem X5_no_scene_start_nothing (text : string) :
  no_line is_scene_start text = true ->
  extract_episodes_from_text text = Returned ([], []).
Proof.
  intros H. unfold extract_episodes_from_text.
  now rewrite (run_no_start _ H init eq_refl).
Qed.

Lemma X5_no_scene_start_nothing_witness :
  no_line is_scene_start headers_only = true
  /\ extract_episodes_from_text headers_only = Returned ([], []).
Proof.
  split; [reflexivity|].
  apply (X5_no_scene_start_nothing headers_only). reflexivity.
Defined.

(** ** The identifiers of the mapping *)

Lemma all_chars_app (p : ascii -> bool) (a b : string) :
  all_chars p (a ++ b)%string = all_chars p a && all_chars p b.
Proof.
  induction a as [|c a IH]; simpl; [reflexivity|].
  now rewrite IH, andb_assoc.
Qed.

Lemma length_app_string (a b : string) :
  String.length (a ++ b)%string = String.length a + String.length b.
Proof. induction a as [|c a IH]; simpl; [reflexivity | now rewrite IH]. Qed.

Lemma zeros_digits (n : nat) : all_chars isdigit (zeros n) = true.
Proof. induction n as [|n IH]; simpl; [reflexivity | exact IH]. Qed.

Lemma zeros_length (n : nat) : String.length (zeros n) = n.
Proof. induction n as [|n IH]; simpl; [reflexivity | now rewrite IH]. Qed.

(** Every identifier among the headers comes from a line that the pattern
    accepts. *)
Lemma declarations_keys (lines : list string) :
  forall inside id,
    In id (keys (declarations inside lines)) ->
    exists line season episode_num t,
      In line lines
      /\ episode_pattern_match (strip line) = Some (season, episode_num, t)
      /\ id = episode_id season episode_num.
Proof.
  induction lines as [|raw more IH]; intros inside id; cbn [declarations].
  - intros [].
  - assert (Hmore : forall b, In id (keys (declarations b more)) ->
              exists line season episode_num t,
                In line (raw :: more)
                /\ episode_pattern_match (strip line)
                   = Some (season, episode_num, t)
                /\ id = episode_id season episode_num).
    { intros b Hb. destruct (IH b id Hb) as (l & s & e & t & Hl & Hm & Hid).
      exists l, s, e, t. split; [now right | auto]. }
    destruct (is_scene_start (strip raw)); [apply Hmore|].
    destruct inside; cbn [andb]; [|apply Hmore].
    destruct (is_scene_end (strip raw)); [apply Hmore|].
    destruct (episode_pattern_match (strip raw)) as [[[season ep] t]|] eqn:Em;
      [|apply Hmore].
    intros [<-|Hin]; [|now apply (Hmore true)].
    exists raw, season, ep, t. split; [now left | auto].
Qed.

(** X6: every identifier of the returned mapping has the shape S, a
    non-empty run of digits, E, and a run of at least two digits. *)
Theorem X6_identifier_shape (text : string) :
  exists eps flat,
    extract_episodes_from_text text = Returned (eps, flat)
    /\ forall id, mem eps id = true ->
         exists season num,
           id = ("S" ++ season ++ "E" ++ num)%string
           /\ is_empty season = false
           /\ all_chars isdigit season = true
           /\ all_chars isdigit num = true
           /\ 2 <= String.length num.
Proof.
  destruct (run_titles (str_split newline text) init init_inv)
    as (st & Hrun & Ht).
  exists (episodes st), (scenes_with_episodes st). split.
  { unfold extract_episodes_from_text. now rewrite Hrun. }
  intros id Hmem. specialize (Ht id).
  cbn [init episodes in_scene get option_map title_or] in Ht.
  assert (Hin : In id (keys (declarations false (str_split newline text)))).
  { apply mem_In. unfold mem in *.
    destruct (get (episodes st) id); [|discriminate].
    now rewrite <- Ht. }
  apply declarations_keys in Hin
    as (line & season & ep & t & _ & Hm & ->).
  apply episode_pattern_match_spec in Hm.
  destruct Hm as (ws & rest & _ & Hne & Hse & Hne' & Hep & _).
  exists season, (zeros (2 - String.length ep) ++ ep)%string.
  split; [reflexivity|]. split; [assumption|]. split; [assumption|]. split.
  - now rewrite all_chars_app, zeros_digits, Hep.
  - rewrite length_app_string, zeros_length. lia.
Qed.

Lemma mem_existsb {V : Type} (d : dict V) (k : string) :
  mem d k = existsb (String.eqb k) (keys d).
Proof.
  unfold mem. induction d as [|[k' v] d IH]; simpl; [reflexivity|].
  rewrite (String.eqb_sym k k').
  destruct (String.eqb k' k); [reflexivity | exact IH].
Qed.

Lemma step_keys (st st1 : state) (raw : string) (more : list string) :
  step st raw = Returned st1 ->
  first_seen (keys (episodes st1)) (keys (declarations (in_scene st1) more))
  = first_seen (keys (episodes st))
      (keys (declarations (in_scene st) (raw :: more))).
Proof.
  intros Hs. cbn [declarations]. unfold step in Hs.
  destruct (is_scene_start (strip raw)) eqn:Estart.
  { injection Hs as <-. reflexivity. }
  destruct (in_scene st) eqn:Ein; cbn [andb] in *.
  - destruct (is_scene_end (strip raw)) eqn:Eend.
    + destruct (scene_buffer st) as [|b0 bs];
        [injection Hs as <-; reflexivity|].
      destruct (active (current_episode st)) as [e|];
        [|injection Hs as <-; reflexivity].
      unfold commit in Hs.
      destruct (get (episodes st) e) as [r|] eqn:Eg; [|discriminate].
      injection Hs as <-. fields.
      rewrite keys_set_present; [reflexivity|].
      unfold mem. now rewrite Eg.
    + destruct (episode_pattern_match (strip raw)) as [[[season ep] t]|] eqn:Em;
        [|injection Hs as <-; reflexivity].
      rewrite (step_code_id _ _ _ _ Em) in Hs. injection Hs as <-. fields.
      cbn [keys map fst first_seen]. fold (keys (declarations true more)).
      rewrite <- mem_existsb.
      destruct (mem (episodes st) (episode_id season ep)) eqn:Emem;
        [reflexivity|].
      now rewrite keys_set_absent.
  - injection Hs as <-. now rewrite Ein.
Qed.

Lemma run_keys (lines : list string) :
  forall st, inv st ->
    exists st', run st lines = Returned st'
      /\ keys (episodes st')
         = first_seen (keys (episodes st))
             (keys (declarations (in_scene st) lines)).
Proof.
  induction lines as [|raw more IH]; intros st Hinv.
  - exists st. split; reflexivity.
  - destruct (step_inv st raw Hinv) as (st1 & Hs & Hinv1).
    destruct (IH st1 Hinv1) as (st' & Hrun & Hk).
    exists st'. split; [simpl; now rewrite Hs|].
    rewrite Hk. now apply step_keys.
Qed.

(** X7: the identifiers come in the returned mapping in the order in which
    their first header line is met inside a scene; so the first episode of
    the mapping is the first one declared. *)
Theorem X7_identifiers_in_order_of_first_header (text : string) :
  exists eps flat,
    extract_episodes_from_text text = Returned (eps, flat)
    /\ keys eps
       = first_seen [] (keys (declarations false (str_split newline text))).
Proof.
  destruct (run_keys (str_split newline text) init init_inv)
    as (st & Hrun & Hk).
  exists (episodes st), (scenes_with_episodes st). split.
  - unfold extract_episodes_from_text. now rewrite Hrun.
  - exact Hk.
Qed.

(** ** The lines of a scene text *)

Lemma str_split_line (s : string) :
  all_chars not_newline s = true -> str_split newline s = [s].
Proof.
  induction s as [|c s IH]; simpl; [reflexivity|].
  intros [Hc Hs]%andb_true_iff. unfold not_newline in Hc.
  apply negb_true_iff in Hc. rewrite Hc, (IH Hs). reflexivity.
Qed.

(** Joining lines by newlines and splitting at newlines gives the lines
    back. *)
Lemma str_split_join (ls : list string) :
  ls <> [] ->
  Forall (fun l => all_chars not_newline l = true) ls ->
  str_split newline (join nl ls) = ls.
Proof.
  intros Hne Hall. induction Hall as [|l ls Hl Hls IH]; [contradiction|].
  destruct ls as [|l' ls].
  - simpl. now apply str_split_line.
  - unfold join in *.
    change (String.concat nl (l :: l' :: ls))
      with (l ++ String newline (String.concat nl (l' :: ls)))%string.
    rewrite str_split_app, (str_split_line _ Hl), IH by discriminate.
    reflexivity.
Qed.

Lemma str_split_no_newline (s : string) :
  Forall (fun l => all_chars not_newline l = true) (str_split newline s).
Proof.
  induction s as [|c s IH]; simpl; [now constructor|].
  destruct (Ascii.eqb c newline) eqn:Ec;
    [constructor; [reflexivity | exact IH]|].
  assert (Hc : not_newline c = true) by (unfold not_newline; now rewrite Ec).
  destruct (str_split newline s) as [|l ls].
  - constructor; [simpl; now rewrite Hc | constructor].
  - inversion IH; subst. constructor; [|assumption].
    simpl. now rewrite Hc.
Qed.

Lemma all_chars_lstrip (p : ascii -> bool) (s : string) :
  all_chars p s = true -> all_chars p (lstrip s) = true.
Proof.
  induction s as [|c s IH]; simpl; [reflexivity|].
  intros [Hc Hs]%andb_true_iff.
  destruct (isspace c); [auto|]. simpl. now rewrite Hc.
Qed.

Lemma all_chars_rstrip (p : ascii -> bool) (s : string) :
  all_chars p s = true -> all_chars p (rstrip s) = true.
Proof.
  induction s as [|c s IH]; simpl; [reflexivity|].
  intros [Hc Hs]%andb_true_iff. specialize (IH Hs).
  destruct (rstrip s) as [|c' r'].
  - destruct (isspace c); simpl; [reflexivity | now rewrite Hc].
  - cbn [all_chars] in *. now rewrite Hc.
Qed.

Lemma all_chars_strip (p : ascii -> bool) (s : string) :
  all_chars p s = true -> all_chars p (strip s) = true.
Proof. intros H. now apply all_chars_rstrip, all_chars_lstrip. Qed.

(** X8: splitting a committed scene text at newlines gives back the
    trimmed lines of its block: a first line that is a scene start, then
    lines that are neither a scene start nor a close line, and every one of
    them is a trimmed line of the input. *)
Theorem X8_scene_text_lines (text : string) :
  exists eps flat,
    extract_episodes_from_text text = Returned (eps, flat)
    /\ forall rec, In rec flat ->
         exists first rest,
           str_split newline (scene rec) = first :: rest
           /\ is_scene_start first = true
           /\ Forall (fun l => is_scene_start l = false
                               /\ is_scene_end l = false) rest
           /\ incl (first :: rest) (map strip (str_split newline text)).
Proof.
  destruct (run_invariant scenes_from_blocks step_scenes_from_blocks
              (str_split newline text) [] init init_scenes_from_blocks)
    as (st & Hrun & _ & _ & Hflat & _).
  exists (episodes st), (scenes_with_episodes st). split.
  { unfold extract_episodes_from_text. now rewrite Hrun. }
  intros rec Hin.
  destruct (Hflat rec Hin) as (pre & block & close & post & Hl & Hhd & Htl & _ & Ht).
  cbn [app] in Hl.
  destruct block as [|b0 bs]; [discriminate Hhd|]. cbn [hd tl] in *.
  exists (strip b0), (map strip bs).
  assert (Hsub : incl (b0 :: bs) (str_split newline text)).
  { rewrite Hl. intros x Hx. apply in_or_app. right.
    change (b0 :: bs ++ close :: post) with ((b0 :: bs) ++ close :: post).
    apply in_or_app. now left. }
  split; [|split; [assumption|split]].
  - rewrite Ht. unfold trimmed.
    change (strip b0 :: map strip bs) with (map strip (b0 :: bs)).
    apply str_split_join; [discriminate|].
    apply Forall_forall. intros l (x & <- & Hx)%in_map_iff.
    apply all_chars_strip.
    pose proof (str_split_no_newline text) as Hno.
    rewrite Forall_forall in Hno. apply Hno, Hsub, Hx.
  - apply Forall_forall. intros l (x & <- & Hx)%in_map_iff.
    rewrite Forall_forall in Htl. now apply Htl.
  - intros l Hlin. change (strip b0 :: map strip bs) with (map strip (b0 :: bs)) in Hlin.
    apply in_map_iff in Hlin as (x & <- & Hx). apply in_map, Hsub, Hx.
Qed.

(** ** Scenes without an episode *)

Lemma run_no_header (lines : list string) :
  forallb (fun l => negb (is_header (strip l))) lines = true ->
  forall st,
    episodes st = [] -> scenes_with_episodes st = [] ->
    current_episode st = None ->
    exists st',
      run st lines = Returned st'
      /\ episodes st' = [] /\ scenes_with_episodes st' = [].
Proof.
  induction lines as [|raw more IH]; intros Hall st He Hf Hc.
  - exists st. auto.
  - cbn [forallb] in Hall. apply andb_true_iff in Hall as [Hraw Hall].
    apply negb_true_iff in Hraw. unfold is_header in Hraw.
    destruct (episode_pattern_match (strip raw)) eqn:Em; [discriminate|].
    assert (Hs : exists st1,
              step st raw = Returned st1
              /\ episodes st1 = [] /\ scenes_with_episodes st1 = []
              /\ current_episode st1 = None).
    { unfold step. rewrite Em, Hc. cbn [active].
      destruct (is_scene_start (strip raw)); [eexists; split; [reflexivity|]; auto|].
      destruct (in_scene st); cbn [andb]; [|eauto].
      destruct (is_scene_end (strip raw)).
      - destruct (scene_buffer st); eexists; split; try reflexivity; auto.
      - eexists. split; [reflexivity|]. auto. }
    destruct Hs as (st1 & Hs & He1 & Hf1 & Hc1).
    destruct (IH Hall st1 He1 Hf1 Hc1) as (st' & Hrun & H').
    exists st'. cbn [run]. rewrite Hs. cbn [bind]. auto.
Qed.

(** X9: a text none of whose lines, once trimmed, starts as an episode
    header gives the empty mapping and the empty list, whatever scenes it
    holds: a scene that closes while no episode has been declared is
    dropped. *)
Theorem X9_no_header_nothing (text : string) :
  no_line is_header text = true ->
  extract_episodes_from_text text = Returned ([], []).
Proof.
  intros H.
  destruct (run_no_header _ H init eq_refl eq_refl eq_refl)
    as (st & Hrun & He & Hf).
  unfold extract_episodes_from_text. rewrite Hrun. cbn [bind].
  now rewrite He, Hf.
Qed.

Lemma X9_no_header_nothing_witness :
  no_line is_header scene_without_header = true
  /\ extract_episodes_from_text scene_without_header = Returned ([], []).
Proof.
  split; [reflexivity|].
  apply (X9_no_header_nothing scene_without_header). reflexivity.
Defined.

(** ** The graph built from the rows *)

(** X10: two characters are joined by an edge of the graph exactly when
    some row names them, in either order, with at least [min_scenes]
    scenes. *)
Theorem X10_edge_iff_kept_row (data : list row) (min_scenes : Z)
    (a b : string) :
  nx.has_edge (load_data data min_scenes) a b = true
  <-> kept data min_scenes a b.
Proof.
  unfold load_data. rewrite has_edge_add_rows.
  split; [intros [H|H]; [discriminate H | exact H] | now right].
Qed.

Lemma edge_weight_add_rows (data : list row) (m : Z) (a b : string) :
  forall G,
    nx.edge_weight (add_rows G data m) a b
    = fold_left
        (fun found r =>
           if (Scenes_Together r >=? m)%Z && joins r a b
           then Some (Scenes_Together r)
           else found)
        data (nx.edge_weight G a b).
Proof.
  induction data as [|r data IH]; intros G; [reflexivity|].
  cbn [add_rows fold_left]. fold (add_rows
    (if (Scenes_Together r >=? m)%Z
     then nx.add_edge G (Character_1 r) (Character_2 r) (Scenes_Together r)
     else G) data m).
  rewrite IH. f_equal. unfold joins.
  destruct (Scenes_Together r >=? m)%Z; cbn [andb]; [|reflexivity].
  apply edge_weight_add_edge.
Qed.

Lemma edge_weight_load_data (data : list row) (m : Z) (a b : string) :
  nx.edge_weight (load_data data m) a b = last_kept data m a b.
Proof. apply edge_weight_add_rows. Qed.

(** X11: the weight of an edge is the number of scenes of the last row
    that names its two characters, in either order, with at least
    [min_scenes] scenes: a later row for the same pair replaces the weight,
    whatever the order of the two names. *)
Theorem X11_last_row_gives_weight (data : list row) (min_scenes : Z)
    (a b : string) :
  nx.edge_weight (load_data data min_scenes) a b
  = last_kept data min_scenes a b
  /\ nx.edge_weight (load_data data min_scenes) b a
     = last_kept data min_scenes a b.
Proof.
  split; [apply edge_weight_load_data|].
  pose proof (load_data_well_formed data min_scenes) as (_ & _ & Hsym).
  rewrite <- edge_weight_load_data.
  destruct (nx.edge_weight (load_data data min_scenes) a b) as [w|] eqn:Eab.
  - now apply Hsym.
  - destruct (nx.edge_weight (load_data data min_scenes) b a) as [w|] eqn:Eba;
      [|reflexivity].
    apply Hsym in Eba. congruence.
Qed.

Lemma last_kept_from (data : list row) (m : Z) (a b : string) :
  forall found w,
    fold_left
      (fun found r =>
         if (Scenes_Together r >=? m)%Z && joins r a b
         then Some (Scenes_Together r)
         else found)
      data found = Some w ->
    found = Some w
    \/ exists r, In r data /\ Scenes_Together r = w /\ (m <= w)%Z
                 /\ joins r a b = true.
Proof.
  induction data as [|r data IH]; intros found w; cbn [fold_left].
  - now left.
  - intros H. apply IH in H as [H|(r' & Hin & Hr)].
    + destruct (Scenes_Together r >=? m)%Z eqn:E; cbn [andb] in H;
        [|now left].
      destruct (joins r a b) eqn:Ej; [|now left].
      injection H as <-. apply Z.geb_le in E.
      right. exists r. split; [now left | auto].
    + right. exists r'. split; [now right | exact Hr].
Qed.

(** X12: every weight stored in the graph is that of a row of the table
    and is at least [min_scenes]. *)
Theorem X12_weights_reach_threshold (data : list row) (min_scenes : Z)
    (a b : string) (w : Z) :
  nx.edge_weight (load_data data min_scenes) a b = Some w ->
  (min_scenes <= w)%Z
  /\ exists r, In r data /\ Scenes_Together r = w /\ joins r a b = true.
Proof.
  rewrite edge_weight_load_data. unfold last_kept.
  intros [H|(r & Hin & Hw & Hm & Hj)]%last_kept_from; [discriminate H|].
  split; [exact Hm|]. exists r. auto.
Qed.

Lemma X12_weights_reach_threshold_witness :
  nx.edge_weight (load_data example_rows 40) "C" "A" = Some 40%Z
  /\ (40 <= 40)%Z
  /\ exists r, In r example_rows /\ Scenes_Together r = 40%Z
               /\ joins r "C" "A" = true.
Proof.
  split; [reflexivity|].
  apply (X12_weights_reach_threshold example_rows 40 "C" "A" 40).
  reflexivity.
Defined.

(** Every node of a graph built by adding edges has a neighbour. *)
Lemma add_rows_no_isolated (data : list row) (m : Z) :
  forall G,
    (forall a, nx.has_node G a = true ->
               exists b, nx.has_edge G a b = true) ->
    forall a, nx.has_node (add_rows G data m) a = true ->
              exists b, nx.has_edge (add_rows G data m) a b = true.
Proof.
  induction data as [|r data IH]; intros G HG; [exact HG|].
  cbn [add_rows fold_left]. apply IH.
  destruct (Scenes_Together r >=? m)%Z; [|exact HG].
  intros a. unfold nx.has_node. rewrite mem_add_edge.
  intros [[Hu|Hv]%orb_true_iff|Ha]%orb_true_iff.
  - exists (Character_2 r). rewrite has_edge_add_edge, Hu, String.eqb_refl.
    reflexivity.
  - exists (Character_1 r). rewrite has_edge_add_edge, Hv, String.eqb_refl.
    cbn [andb]. now rewrite orb_true_r.
  - destruct (HG a Ha) as (b & Hb). exists b.
    rewrite has_edge_add_edge, Hb. now rewrite orb_true_r.
Qed.

Lemma load_data_no_isolated (data : list row) (m : Z) (a : string) :
  nx.has_node (load_data data m) a = true ->
  exists b, nx.has_edge (load_data data m) a b = true.
Proof.
  apply add_rows_no_isolated. intros x Hx. discriminate Hx.
Qed.

(** X13: the nodes of the graph are the characters named by a row with at
    least [min_scenes] scenes; no node is without an edge, and a character
    whose rows all stay under the threshold is not a node. *)
Theorem X13_nodes_are_kept_endpoints (data : list row) (min_scenes : Z)
    (a : string) :
  nx.has_node (load_data data min_scenes) a = true
  <-> exists b, kept data min_scenes a b.
Proof.
  split.
  - intros (b & Hb)%load_data_no_isolated. exists b.
    now apply has_edge_load_data.
  - intros (b & Hb). apply has_edge_load_data in Hb.
    apply adjacent_iff in Hb. now apply adjacent_node_l in Hb.
Qed.

(** X14: on a graph built by [load_data], [character_stats] returns a
    record for every node: the node has at least one neighbour, and its top
    co-character is joined to it by a row of at least [min_scenes]
    scenes. *)
Theorem X14_character_stats_on_loaded_graph (data : list row)
    (min_scenes : Z) (c : string) :
  nx.has_node (load_data data min_scenes) c = true ->
  exists s,
    character_stats (load_data data min_scenes) c = Returned s
    /\ 1 <= unique_co_appearances s
    /\ (min_scenes <= snd (top_co_character s))%Z
    /\ kept data min_scenes c (fst (top_co_character s)).
Proof.
  intros Hc. destruct (load_data_no_isolated _ _ _ Hc) as (b & Hb).
  pose proof (load_data_well_formed data min_scenes) as (_ & Hnd & _).
  unfold nx.has_edge, nx.edge_weight in Hb. unfold character_stats.
  destruct (get (load_data data min_scenes) c) as [nbrs|] eqn:Hg;
    [|discriminate Hb].
  assert (Hne : nbrs <> []) by (intros ->; discriminate Hb).
  destruct (py_max_spec snd nbrs Hne) as ([k w] & Hm & Hin & _).
  rewrite Hm. cbn [bind]. eexists. split; [reflexivity|].
  cbn [unique_co_appearances top_co_character fst snd].
  assert (Hw : nx.edge_weight (load_data data min_scenes) c k = Some w).
  { unfold nx.edge_weight. rewrite Hg. apply In_get; [|exact Hin].
    now apply (Hnd c). }
  split; [destruct nbrs; [contradiction | simpl; lia]|]. split.
  - rewrite edge_weight_load_data in Hw. unfold last_kept in Hw.
    apply last_kept_from in Hw as [H|(r & _ & _ & Hmw & _)];
      [discriminate H | exact Hmw].
  - apply has_edge_load_data. unfold nx.has_edge. now rewrite Hw.
Qed.

Lemma X14_character_stats_on_loaded_graph_witness :
  nx.has_node (load_data example_rows 40) "A" = true
  /\ exists s,
       character_stats (load_data example_rows 40) "A" = Returned s
       /\ 1 <= unique_co_appearances s
       /\ (40 <= snd (top_co_character s))%Z
       /\ kept example_rows 40 "A" (fst (top_co_character s)).
Proof.
  split; [reflexivity|].
  apply (X14_character_stats_on_loaded_graph example_rows 40 "A").
  reflexivity.
Defined.

(** ** The strongest pairs *)

Section SortingMore.
Context {A : Type} (key : A -> Z).

(** The sort is stable: the items with a given key keep their order. *)
Lemma insert_desc_stable (k : Z) (x : A) (l : list A) :
  filter (fun y => (key y =? k)%Z) (insert_desc key x l)
  = filter (fun y => (key y =? k)%Z) (x :: l).
Proof.
  induction l as [|y r IH]; [reflexivity|].
  cbn [insert_desc]. destruct (key x <? key y)%Z eqn:E; [|reflexivity].
  apply Z.ltb_lt in E. cbn [filter] in *. rewrite IH.
  destruct (key x =? k)%Z eqn:Ex, (key y =? k)%Z eqn:Ey; try reflexivity.
  apply Z.eqb_eq in Ex, Ey. lia.
Qed.

Lemma sorted_desc_stable (k : Z) (l : list A) :
  filter (fun y => (key y =? k)%Z) (sorted_desc key l)
  = filter (fun y => (key y =? k)%Z) l.
Proof.
  induction l as [|x r IH]; [reflexivity|].
  cbn [sorted_desc fold_right]. fold (sorted_desc key r).
  rewrite insert_desc_stable. cbn [filter]. now rewrite IH.
Qed.

(** What [sorted(l, key=key, reverse=True)[:n]] keeps and leaves out. *)
Lemma top_slice (l : list A) (n : Z) :
  exists rest,
    sorted_desc key l = slice_to (sorted_desc key l) n ++ rest
    /\ (forall a b, In a (slice_to (sorted_desc key l) n) -> In b rest ->
                    desc key a b)
    /\ (Z.of_nat (List.length l) <= n -> rest = [])%Z.
Proof.
  pose proof (sorted_desc_sorted key l) as Hs.
  pose proof (Permutation_length (sorted_desc_perm key l)) as Hlen.
  destruct (slice_to_prefix (sorted_desc key l) n) as (rest & Hr & Hall).
  exists rest. split; [exact Hr|]. split; [|now rewrite <- Hlen].
  revert Hr. unfold slice_to.
  set (m := if (n <? 0)%Z
            then Z.to_nat (Z.of_nat (List.length (sorted_desc key l)) + n)
            else Z.to_nat n).
  replace (if (n <? 0)%Z
           then firstn (Z.to_nat (Z.of_nat (List.length (sorted_desc key l)) + n))
                       (sorted_desc key l)
           else firstn (Z.to_nat n) (sorted_desc key l))
    with (firstn m (sorted_desc key l))
    by (unfold m; now destruct (n <? 0)%Z).
  intros Hr.
  assert (rest = skipn m (sorted_desc key l)) as ->.
  { rewrite <- (firstn_skipn m (sorted_desc key l)) in Hr at 1.
    now apply app_inv_head in Hr. }
  now apply firstn_skipn_desc.
Qed.
End SortingMore.

Lemma map_triple_id (l : list (string * string * Z)) :
  map (fun '(u, v, w) => ((u, v), w)) l = l.
Proof.
  induction l as [|[[u v] w] l IH]; simpl; [reflexivity | now rewrite IH].
Qed.

Lemma edges_pairs_NoDup (G : nx.Graph) :
  nx.well_formed G -> NoDup (nx.edge_pairs G).
Proof.
  intros (Hk & Hn & _). apply edge_pairs_NoDup; [assumption|].
  intros u nbrs Hin. apply (Hn u). now apply In_get.
Qed.

(** X15: on a graph as networkx keeps it, [top_strongest_pairs] returns
    edges of the graph with their weights, by non-increasing weight, no
    pair twice in either order; the edges left out are not heavier than
    those returned, none is left out when [top_n] is at least the number
    of edges, and the number returned is [min(top_n, |edges|)] for
    [top_n >= 0] and [max(0, |edges| + top_n)] for a negative [top_n]. *)
Theorem X15_top_strongest_pairs (G : nx.Graph) (top_n : Z) :
  nx.well_formed G ->
  let r := top_strongest_pairs G top_n in
  let size := Z.of_nat (List.length (nx.edges G)) in
  StronglySorted (desc snd) r
  /\ (forall u v w, In ((u, v), w) r -> nx.edge_weight G u v = Some w)
  /\ NoDup (map (fun x => unordered (fst x)) r)
  /\ (exists rest,
        Permutation (r ++ rest) (nx.edges G)
        /\ (forall a b, In a r -> In b rest -> desc snd a b)
        /\ (size <= top_n -> rest = [])%Z)
  /\ Z.of_nat (List.length r)
     = (if (top_n <? 0)%Z then Z.max 0 (size + top_n)
        else Z.min top_n size).
Proof.
  intros Hwf. cbv zeta. unfold top_strongest_pairs. rewrite map_triple_id.
  pose proof (sorted_desc_perm (fun e => snd e) (nx.edges G)) as Hp.
  destruct (top_slice (fun e => snd e) (nx.edges G) top_n)
    as (rest & Hr & Hdesc & Hall).
  set (sorted_edges := sorted_desc (fun e => snd e) (nx.edges G)) in *.
  set (r := slice_to sorted_edges top_n) in *.
  assert (Hin : forall e, In e r -> In e (nx.edges G)).
  { intros e He. apply (Permutation_in _ Hp). rewrite Hr.
    apply in_or_app. now left. }
  split; [|split; [|split; [|split]]].
  - apply (slice_to_sorted (fun e => snd e)), sorted_desc_sorted.
  - intros u v w He. apply In_edges_has_edge; auto.
  - apply (NoDup_app_remove_r _ (map (fun x => unordered (fst x)) rest)).
    rewrite <- map_app, <- Hr.
    apply (Permutation_NoDup
             (Permutation_sym
                (Permutation_map (fun x => unordered (fst x)) Hp))).
    now apply edges_pairs_NoDup.
  - exists rest. split; [now rewrite <- Hr|]. split; assumption.
  - unfold r. rewrite slice_to_length, (Permutation_length Hp).
    destruct (top_n <? 0)%Z eqn:E.
    + apply Z.ltb_lt in E. lia.
    + apply Z.ltb_ge in E. lia.
Qed.

Lemma X15_top_strongest_pairs_witness :
  nx.well_formed (load_data example_rows 40)
  /\ let r := top_strongest_pairs (load_data example_rows 40) 1 in
     let size := Z.of_nat (List.length (nx.edges (load_data example_rows 40))) in
     StronglySorted (desc snd) r
     /\ (forall u v w, In ((u, v), w) r ->
           nx.edge_weight (load_data example_rows 40) u v = Some w)
     /\ NoDup (map (fun x => unordered (fst x)) r)
     /\ (exists rest,
           Permutation (r ++ rest) (nx.edges (load_data example_rows 40))
           /\ (forall a b, In a r -> In b rest -> desc snd a b)
           /\ (size <= 1 -> rest = [])%Z)
     /\ Z.of_nat (List.length r)
        = (if (1 <? 0)%Z then Z.max 0 (size + 1) else Z.min 1 size).
Proof.
  split; [apply load_data_well_formed|].
  apply (X15_top_strongest_pairs (load_data example_rows 40) 1).
  apply load_data_well_formed.
Defined.

(** X16: both rankings break ties by position: the characters of one
    degree come in [top_connected_characters] in the order of the nodes of
    the graph, the pairs of one weight come in [top_strongest_pairs] in the
    order of the edges of the graph, and the cut keeps the first of
    them. *)
Theorem X16_ties_keep_graph_order (G : nx.Graph) (top_n k : Z) :
  (exists rest,
     filter (fun x => (snd x =? k)%Z) (nx.degree G)
     = filter (fun x => (snd x =? k)%Z) (top_connected_characters G top_n)
       ++ rest)
  /\ (exists rest,
        filter (fun x => (snd x =? k)%Z) (nx.edges G)
        = filter (fun x => (snd x =? k)%Z) (top_strongest_pairs G top_n)
          ++ rest).
Proof.
  split.
  - unfold top_connected_characters.
    destruct (slice_to_prefix (sorted_desc snd (nx.degree G)) top_n)
      as (rest & Hr & _).
    exists (filter (fun x => (snd x =? k)%Z) rest).
    rewrite <- filter_app, <- Hr. symmetry. apply (sorted_desc_stable snd).
  - unfold top_strongest_pairs. rewrite map_triple_id.
    destruct (slice_to_prefix (sorted_desc (fun e => snd e) (nx.edges G)) top_n)
      as (rest & Hr & _).
    exists (filter (fun x => (snd x =? k)%Z) rest).
    rewrite <- filter_app, <- Hr. symmetry.
    apply (sorted_desc_stable (fun e => snd e)).
Qed.

(** ** Families *)

(** X17: [get_family] gives a family name exactly to the names of that
    family's list, and Unknown exactly to the names on none of the three
    lists; the comparison is exact, letter case included. *)
Theorem X17_get_family_table (character : string) :
  (get_family character = "Pritchett" <-> In character pritchetts)
  /\ (get_family character = "Dunphy" <-> In character dunphys)
  /\ (get_family character = "Tucker-Pritchett"
      <-> In character tucker_pritchetts)
  /\ (get_family character = "Unknown"
      <-> ~ In character (pritchetts ++ dunphys ++ tucker_pritchetts)).
Proof.
  unfold get_family, family_groups, find_family.
  fold pritchetts dunphys tucker_pritchetts.
  assert (Hex : forall l, existsb (String.eqb character) l = true
                          <-> In character l).
  { intros l. rewrite existsb_exists. split.
    - intros (x & Hx & ->%String.eqb_eq). exact Hx.
    - intros H. exists character. split; [exact H | apply String.eqb_refl]. }
  assert (Hnex : forall l, existsb (String.eqb character) l = false
                           <-> ~ In character l).
  { intros l. rewrite <- Hex. destruct (existsb _ l); split; congruence. }
  assert (Hpd : In character pritchetts -> In character dunphys -> False).
  { unfold pritchetts, dunphys. simpl. intuition congruence. }
  assert (Hpt : In character pritchetts -> In character tucker_pritchetts
                -> False).
  { unfold pritchetts, tucker_pritchetts. simpl. intuition congruence. }
  assert (Hdt : In character dunphys -> In character tucker_pritchetts
                -> False).
  { unfold dunphys, tucker_pritchetts. simpl. intuition congruence. }
  rewrite !in_app_iff.
  destruct (existsb (String.eqb character) pritchetts) eqn:Ep;
    [apply Hex in Ep | apply Hnex in Ep];
    (destruct (existsb (String.eqb character) dunphys) eqn:Ed;
     [apply Hex in Ed | apply Hnex in Ed]);
    (destruct (existsb (String.eqb character) tucker_pritchetts) eqn:Et;
     [apply Hex in Et | apply Hnex in Et]);
    repeat split; intros; try tauto; try discriminate.
Qed.

(** ** The path found is a shortest one *)

Lemma chain_more (d e : dict (option string)) (x : string)
    (p : list string) :
  nx.chain d x p -> nx.chain (d ++ e) x p.
Proof.
  induction 1 as [x Hx|x y p Hx Hy IH].
  - apply nx.chain_root. now rewrite get_app, Hx.
  - apply nx.chain_step with y; [now rewrite get_app, Hx | exact IH].
Qed.

Lemma chain_hd (d : dict (option string)) (x : string) (p : list string) :
  nx.chain d x p -> exists q, p = x :: q.
Proof. destruct 1; eauto. Qed.

(** The loop that follows the parents computes the chain. *)
Lemma chain_follow (d : dict (option string)) (x : string)
    (p : list string) :
  nx.chain d x p ->
  forall fuel p', nx.follow fuel d (Some x) = Returned p' -> p' = p.
Proof.
  induction 1 as [x Hx|x y p Hx Hy IH]; intros [|k] p';
    try discriminate; rewrite follow_step, Hx.
  - rewrite follow_None. cbn [bind]. now intros [= <-].
  - destruct (nx.follow k d (Some y)) as [q| |] eqn:E; try discriminate.
    cbn [bind]. intros [= <-]. now rewrite (IH _ _ E).
Qed.

Lemma deep_more (d : dict (option string)) (n m : nat) :
  nx.deep d n -> n <= m -> nx.deep d m.
Proof.
  intros H Hle x Hx. destruct (H x Hx) as (p & Hp & Hl). exists p.
  split; [exact Hp | lia].
Qed.

Section Depth.
Variable G : nx.Graph.
Variable other : dict (option string).
Variable n : nat.

(** The keys entered while the neighbours of [v] are scanned are one
    parent further from the root than [v]. *)
Lemma scan_deep (v : string) (nbrs : list string) :
  forall mine fringe,
    (exists p, nx.chain mine v p /\ List.length p <= S n) ->
    nx.deep mine (S n) ->
    exists e,
      fst (fst (nx.scan v nbrs mine other fringe)) = mine ++ e
      /\ nx.deep (mine ++ e) (S n).
Proof.
  induction nbrs as [|w r IH]; intros mine fringe Hv Hd.
  - exists []. rewrite app_nil_r. split; [reflexivity | exact Hd].
  - cbn [nx.scan].
    assert (Hstep : exists mine1 fringe1 e1,
              (if mem mine w then (mine, fringe)
               else (set mine w (Some v), fringe ++ [w])) = (mine1, fringe1)
              /\ mine1 = mine ++ e1 /\ nx.deep mine1 (S n)).
    { destruct (mem mine w) eqn:Ew.
      - exists mine, fringe, []. now rewrite app_nil_r.
      - exists (set mine w (Some v)), (fringe ++ [w]), [(w, Some v)].
        rewrite set_absent by assumption.
        split; [reflexivity|]. split; [reflexivity|].
        intros x Hx. unfold keys in Hx. rewrite map_app in Hx.
        apply in_app_or in Hx as [Hx|[<-|[]]].
        + destruct (Hd x Hx) as (p & Hp & Hl). exists p.
          split; [now apply chain_more | exact Hl].
        + destruct Hv as (p & Hp & Hl). exists (w :: p). split.
          * apply nx.chain_step with v; [|now apply chain_more].
            rewrite get_app, (mem_get_none _ _ Ew). cbn [get].
            now rewrite String.eqb_refl.
          * simpl. lia. }
    destruct Hstep as (mine1 & fringe1 & e1 & -> & -> & Hd1).
    destruct (mem other w); [exists e1; split; [reflexivity | exact Hd1]|].
    destruct (IH (mine ++ e1) fringe1) as (e & He & Hde).
    + destruct Hv as (p & Hp & Hl). exists p.
      split; [now apply chain_more | exact Hl].
    + exact Hd1.
    + exists (e1 ++ e). rewrite He, app_assoc. split; [reflexivity|].
      now rewrite <- app_assoc in Hde |- *.
Qed.

Lemma expand_deep (level : list string) :
  forall mine fringe,
    (forall v, In v level ->
       exists p, nx.chain mine v p /\ List.length p <= S n) ->
    nx.deep mine (S n) ->
    nx.deep (fst (fst (nx.expand G level mine other fringe))) (S n).
Proof.
  induction level as [|v r IH]; intros mine fringe Hl Hd; [exact Hd|].
  cbn [nx.expand].
  destruct (scan_deep v (nx.neighbors G v) mine fringe
              (Hl v (or_introl eq_refl)) Hd) as (e & He & Hde).
  destruct (nx.scan v (nx.neighbors G v) mine other fringe)
    as [[mine1 fringe1] [w|]]; cbn [fst] in He; subst mine1;
    [exact Hde|].
  apply IH; [|exact Hde].
  intros x Hx. destruct (Hl x (or_intror Hx)) as (p & Hp & Hlen).
  exists p. split; [now apply chain_more | exact Hlen].
Qed.
End Depth.

Section Shortest.
Variable G : nx.Graph.
Hypothesis G_wf : nx.well_formed G.

Lemma within_le (root : string) (n m : nat) (x : string) :
  nx.within G root n x -> n <= m -> nx.within G root m x.
Proof.
  intros H. revert m. induction H as [n|n u x Hu IH Hadj]; intros m Hle.
  - constructor.
  - destruct m as [|m]; [lia|].
    apply nx.within_step with u; [apply IH; lia | exact Hadj].
Qed.

Lemma within_prepend (s s' : string) (n : nat) (x : string) :
  nx.adjacent G s s' -> nx.within G s' n x -> nx.within G s (S n) x.
Proof.
  intros Hadj H. induction H as [n|n u x Hu IH Hux].
  - apply nx.within_step with s; [constructor | exact Hadj].
  - apply nx.within_step with u; [exact IH | exact Hux].
Qed.

(** The first node of a walk is within the length of the walk of its
    last node. *)
Lemma walk_within_back (q : list string) :
  forall s, nx.walk G (s :: q) ->
    nx.within G (last (s :: q) s) (List.length q) s.
Proof.
  induction q as [|s' q IH]; intros s Hw; [constructor|].
  destruct Hw as (_ & Hadj & Hw).
  change (last (s :: s' :: q) s) with (last (s' :: q) s).
  rewrite (last_default s' s s'). cbn [List.length].
  apply nx.within_step with s'; [now apply IH | now apply adjacent_sym].
Qed.

(** A walk between two nodes whose neighbourhoods of radius [i] and [j]
    share no node has more than [i + j + 1] nodes. *)
Lemma walk_lower_bound (t : string) (j i : nat) :
  forall s q,
    nx.walk G (s :: q) ->
    last (s :: q) s = t ->
    (forall x, nx.within G s i x -> nx.within G t j x -> False) ->
    i + j + 2 <= List.length (s :: q).
Proof.
  induction i as [|i IH]; intros s q Hw Hlast Hdis.
  - destruct (Nat.le_gt_cases (List.length q) j) as [Hle|Hgt];
      [|simpl; lia].
    exfalso. apply (Hdis s); [constructor|].
    apply within_le with (List.length q); [|exact Hle].
    rewrite <- Hlast. now apply walk_within_back.
  - destruct q as [|s' q].
    + exfalso. simpl in Hlast. subst t. apply (Hdis s); constructor.
    + pose proof Hw as (_ & Hadj & Hw').
      change (last (s :: s' :: q) s) with (last (s' :: q) s) in Hlast.
      rewrite (last_default s' s s') in Hlast.
      specialize (IH s' q Hw' Hlast).
      cbn [List.length] in *. apply le_n_S. apply IH.
      intros x Hx Hx'. apply (Hdis x); [|exact Hx'].
      now apply within_prepend with s'.
Qed.

Lemma covers_apart_bound (s t : string) (pred succ : dict (option string))
    (i j : nat) (q : list string) :
  nx.covers G s pred i -> nx.covers G t succ j -> nx.apart succ pred ->
  nx.path_between G s t q -> i + j + 2 <= List.length q.
Proof.
  intros Hp Hs Hap (Hw & Hhd & Hlast & _).
  destruct q as [|u q]; [discriminate Hhd|]. injection Hhd as ->.
  apply (walk_lower_bound t j i s q Hw Hlast).
  intros x Hx Hx'. apply Hp, Hap in Hx. apply Hs, mem_In in Hx'.
  congruence.
Qed.

(** Once every old key has all its neighbours among the keys, the keys
    hold the nodes one edge further. *)
Lemma covers_next (root : string) (d d' : dict (option string)) (n : nat) :
  nx.covers G root d n ->
  In root (keys d') ->
  (forall u, In u (keys d) -> nx.closed_at G d' u) ->
  nx.covers G root d' (S n).
Proof.
  intros Hc Hroot Hcl x Hx. inversion Hx as [m|m u y Hu Hadj]; subst.
  - exact Hroot.
  - apply (Hcl u); [now apply Hc | exact Hadj].
Qed.

(** What a level that meets nothing leaves: the side in order, one
    parent deeper, and holding the nodes one edge further. *)
Lemma expand_level_depth (root : string) (other mine : dict (option string))
    (fringe : list string) (n : nat) :
  nx.side_ok G root mine fringe ->
  nx.apart other mine ->
  nx.deep mine n ->
  nx.covers G root mine n ->
  match nx.expand G fringe mine other [] with
  | (mine', _, Some w) =>
      In w (keys mine') /\ mem other w = true /\ nx.deep mine' (S n)
  | (mine', fringe', None) =>
      nx.side_ok G root mine' fringe'
      /\ nx.apart other mine'
      /\ nx.deep mine' (S n)
      /\ nx.covers G root mine' (S n)
  end.
Proof.
  intros Hside Hap Hd Hc.
  pose proof (expand_level G root other mine fringe Hside Hap) as Hl.
  destruct Hside as (Ht & Hfr & Hcl).
  pose proof (expand_spec G root other fringe mine [] Ht Hfr Hap) as Hs.
  assert (Hdeep : nx.deep (fst (fst (nx.expand G fringe mine other []))) (S n)).
  { apply expand_deep; [|now apply deep_more with n; [|lia]].
    intros v Hv. now apply Hd, Hfr. }
  destruct (nx.expand G fringe mine other []) as [[mine' fringe'] [w|]];
    cbn [fst] in Hdeep.
  - destruct Hl as (_ & Hw & Ho). auto.
  - destruct Hl as (Hside' & Hap' & _).
    destruct Hs as (Ht' & Hg & Hcl' & _).
    split; [exact Hside'|]. split; [exact Hap'|]. split; [exact Hdeep|].
    apply covers_next with mine; [exact Hc | |].
    + now apply (tree_root_key G root).
    + intros u Hu. destruct (Hcl u Hu) as [Hin|Hclosed];
        [now apply Hcl' | eapply closed_at_grown; eauto].
Qed.

Variables source target : string.

(** The node at which the two sides meet is, through the two chains of
    parents, on a path that no walk between the two ends is shorter
    than. *)
Lemma search_shortest (fuel : nat) :
  forall pred succ ff rf i j,
    nx.side_ok G source pred ff ->
    nx.side_ok G target succ rf ->
    nx.apart succ pred ->
    nx.deep pred i -> nx.deep succ j ->
    nx.covers G source pred i -> nx.covers G target succ j ->
    forall pred' succ' w,
      nx.search fuel G pred succ ff rf = Returned (pred', succ', w) ->
      exists pf pb,
        nx.chain pred' w pf /\ nx.chain succ' w pb
        /\ forall q, nx.path_between G source target q ->
             List.length pf + List.length pb <= S (List.length q).
Proof.
  induction fuel as [|k IH];
    intros pred succ ff rf i j Hf Hr Hap Hdf Hdr Hcf Hcr pred' succ' w;
    [discriminate|].
  cbn [nx.search].
  destruct (nx.is_nil ff || nx.is_nil rf); [discriminate|].
  destruct (Nat.leb (List.length ff) (List.length rf)).
  - pose proof (expand_level_depth source succ pred ff i Hf Hap Hdf Hcf)
      as He.
    destruct (nx.expand G ff pred succ []) as [[pred1 ff1] [w1|]].
    + destruct He as (Hw & Ho & Hd1). intros [= <- <- <-].
      destruct (Hd1 w1 Hw) as (pf & Hpf & Hlf).
      apply mem_In in Ho. destruct (Hdr w1 Ho) as (pb & Hpb & Hlb).
      exists pf, pb. split; [exact Hpf|]. split; [exact Hpb|].
      intros q Hq.
      pose proof (covers_apart_bound _ _ _ _ _ _ _ Hcf Hcr Hap Hq). lia.
    + destruct He as (Hf1 & Hap1 & Hd1 & Hc1).
      now apply (IH pred1 succ ff1 rf (S i) j).
  - pose proof (expand_level_depth target pred succ rf j Hr
                  (apart_sym _ _ Hap) Hdr Hcr) as He.
    destruct (nx.expand G rf succ pred []) as [[succ1 rf1] [w1|]].
    + destruct He as (Hw & Ho & Hd1). intros [= <- <- <-].
      destruct (Hd1 w1 Hw) as (pb & Hpb & Hlb).
      apply mem_In in Ho. destruct (Hdf w1 Ho) as (pf & Hpf & Hlf).
      exists pf, pb. split; [exact Hpf|]. split; [exact Hpb|].
      intros q Hq.
      pose proof (covers_apart_bound _ _ _ _ _ _ _ Hcf Hcr Hap Hq). lia.
    + destruct He as (Hr1 & Hap1 & Hd1 & Hc1).
      apply (IH pred succ1 ff rf1 i (S j)); trivial.
      now apply apart_sym.
Qed.

(** The path put together at the meeting node has the nodes of the two
    chains, the meeting node once. *)
Lemma meeting_length (pred succ : dict (option string)) (w : string)
    (pf pb p : list string) (f1 f2 : nat) :
  nx.chain pred w pf -> nx.chain succ w pb ->
  (back <- nx.follow f1 pred (Some w) ;;
   let path := rev back in
   match get succ (last path w) with
   | None => Raised KeyError
   | Some w' =>
       rest <- nx.follow f2 succ w' ;;
       Returned (path ++ rest)
   end) = Returned p ->
  S (List.length p) = List.length pf + List.length pb.
Proof.
  intros Hpf Hpb.
  destruct (nx.follow f1 pred (Some w)) as [back| |] eqn:E1;
    try discriminate.
  cbn [bind]. cbv zeta. rewrite (chain_follow _ _ _ Hpf _ _ E1).
  destruct (chain_hd _ _ _ Hpf) as (pf' & ->).
  rewrite last_rev_cons.
  inversion Hpb as [x Hx|x y pb' Hx Hy]; subst; rewrite Hx.
  - rewrite follow_None. cbn [bind]. intros [= <-].
    rewrite !length_app, length_rev. simpl. lia.
  - destruct (nx.follow f2 succ (Some y)) as [rest| |] eqn:E2;
      try discriminate.
    cbn [bind]. intros [= <-]. rewrite (chain_follow _ _ _ Hy _ _ E2).
    rewrite !length_app, length_rev. simpl. lia.
Qed.

(** No walk between the two nodes has fewer nodes than the path
    returned. *)
Lemma bidirectional_shortest_path_shortest (p q : list string) :
  nx.bidirectional_shortest_path G source target = Returned p ->
  nx.path_between G source target q ->
  List.length p <= List.length q.
Proof.
  unfold nx.bidirectional_shortest_path, nx.bidirectional_pred_succ.
  destruct (nx.has_node G source); [|discriminate].
  destruct (nx.has_node G target); [|discriminate]. cbn [negb].
  destruct (String.eqb target source) eqn:E.
  - apply String.eqb_eq in E. subst target. cbn [bind].
    intros Hp Hq.
    assert (Hc : nx.chain [(source, @None string)] source [source]).
    { apply nx.chain_root. cbn [get]. now rewrite String.eqb_refl. }
    pose proof (meeting_length _ _ _ _ _ _ _ _ Hc Hc Hp) as Hlen.
    destruct Hq as (_ & _ & _ & Hne). destruct q; [contradiction|].
    simpl in *. lia.
  - apply String.eqb_neq in E.
    destruct (nx.search (S (List.length G)) G [(source, None)]
                [(target, None)] [source] [target])
      as [[[pred succ] w]| |] eqn:Es; try discriminate.
    cbn [bind]. intros Hp Hq.
    assert (Hroot : forall r : string,
              nx.side_ok G r [(r, None)] [r]
              /\ nx.deep [(r, None)] 0
              /\ nx.covers G r [(r, None)] 0).
    { intros r. split; [|split].
      - split; [constructor|]. split; [intros x Hx; exact Hx|].
        intros u Hu. now left.
      - intros x [<-|[]]. exists [r]. split; [|simpl; lia].
        apply nx.chain_root. cbn [get]. now rewrite String.eqb_refl.
      - intros x Hx. inversion Hx; subst. now left. }
    destruct (Hroot source) as (Hf & Hdf & Hcf).
    destruct (Hroot target) as (Hr & Hdr & Hcr).
    assert (Hap : nx.apart [(target, @None string)] [(source, None)]).
    { intros x [<-|[]]. unfold mem. simpl.
      now rewrite (eqb_false_ne _ _ E). }
    destruct (search_shortest _ _ _ _ _ _ _ Hf Hr Hap Hdf Hdr Hcf Hcr
                _ _ _ Es) as (pf & pb & Hpf & Hpb & Hbound).
    pose proof (meeting_length _ _ _ _ _ _ _ _ Hpf Hpb Hp) as Hlen.
    specialize (Hbound q Hq). lia.
Qed.
End Shortest.

Lemma path_between_rev (G : nx.Graph) (s t : string) (p : list string) :
  nx.well_formed G ->
  nx.path_between G s t p -> nx.path_between G t s (rev p).
Proof.
  intros Hwf (Hw & Hhd & Hlast & Hne).
  destruct p as [|u q]; [contradiction|]. injection Hhd as ->.
  split; [now apply walk_rev|]. split; [|split].
  - rewrite (hd_error_rev s s). now rewrite Hlast.
  - apply last_rev_cons.
  - simpl. now destruct (rev q).
Qed.

(** X18: when some walk joins two nodes of the graph, [shortest_path]
    returns a path between them that has no more nodes than that walk: the
    path returned is a shortest one. *)
Theorem X18_shortest_path_is_shortest (G : nx.Graph) (s t : string)
    (q : list string) :
  nx.well_formed G ->
  nx.path_between G s t q ->
  exists p,
    shortest_path G s t = Returned (Some p)
    /\ nx.path_between G s t p
    /\ List.length p <= List.length q.
Proof.
  intros Hwf Hq.
  assert (Hs : nx.has_node G s = true).
  { destruct Hq as (Hw & Hhd & _). destruct q as [|u q]; [discriminate|].
    injection Hhd as ->. now destruct Hw. }
  assert (Ht : nx.has_node G t = true).
  { apply (path_between_rev _ _ _ _ Hwf) in Hq.
    destruct Hq as (Hw & Hhd & _). destruct (rev q) as [|u r]; [discriminate|].
    injection Hhd as ->. now destruct Hw. }
  unfold shortest_path, nx.shortest_path.
  destruct (bidirectional_shortest_path_spec G Hwf s t Hs Ht)
    as [[_ Hno]|(p & Hp & Hpath)].
  - exfalso. apply Hno. now exists q.
  - exists p. rewrite Hp. split; [reflexivity|]. split; [exact Hpath|].
    now apply (bidirectional_shortest_path_shortest G Hwf s t).
Qed.

Lemma X18_shortest_path_is_shortest_witness :
  nx.well_formed (load_data example_rows 40)
  /\ nx.path_between (load_data example_rows 40) "B" "C" ["B"; "A"; "C"]
  /\ exists p,
       shortest_path (load_data example_rows 40) "B" "C" = Returned (Some p)
       /\ nx.path_between (load_data example_rows 40) "B" "C" p
       /\ List.length p <= List.length ["B"; "A"; "C"].
Proof.
  assert (Hq : nx.path_between (load_data example_rows 40) "B" "C"
                 ["B"; "A"; "C"]).
  { unfold nx.path_between.
    split; [|split; [reflexivity | split; [reflexivity | discriminate]]].
    cbn [nx.walk]. unfold nx.adjacent.
    repeat split; vm_compute; auto. }
  split; [apply load_data_well_formed|]. split; [exact Hq|].
  apply (X18_shortest_path_is_shortest (load_data example_rows 40) "B" "C"
           ["B"; "A"; "C"] (load_data_well_formed _ _) Hq).
Defined.

(** X19: asked for a path from a node to itself, [shortest_path] returns
    the path made of that node alone. *)
Theorem X19_path_to_itself (G : nx.Graph) (c : string) :
  nx.has_node G c = true ->
  shortest_path G c c = Returned (Some [c]).
Proof.
  intros Hc.
  unfold shortest_path, nx.shortest_path, nx.bidirectional_shortest_path,
    nx.bidirectional_pred_succ.
  rewrite Hc, String.eqb_refl. cbn [negb bind List.length].
  rewrite follow_step. cbn [get]. rewrite String.eqb_refl, follow_None.
  cbn [bind rev app last get]. rewrite String.eqb_refl, follow_None.
  reflexivity.
Qed.

Lemma X19_path_to_itself_witness :
  nx.has_node (load_data example_rows 40) "A" = true
  /\ shortest_path (load_data example_rows 40) "A" "A"
     = Returned (Some ["A"]).
Proof.
  split; [reflexivity|].
  apply (X19_path_to_itself (load_data example_rows 40) "A"). reflexivity.
Defined.

(** X20: the answer does not depend on the direction of the question:
    between two nodes of the graph, no path is found one way exactly when
    none is found the other way, and the paths found both ways have the
    same number of nodes. *)
Theorem X20_direction_does_not_matter (G : nx.Graph) (s t : string) :
  nx.well_formed G ->
  nx.has_node G s = true -> nx.has_node G t = true ->
  (shortest_path G s t = Returned None
   <-> shortest_path G t s = Returned None)
  /\ (forall p p',
        shortest_path G s t = Returned (Some p) ->
        shortest_path G t s = Returned (Some p') ->
        List.length p = List.length p').
Proof.
  intros Hwf Hs Ht. unfold shortest_path, nx.shortest_path.
  destruct (bidirectional_shortest_path_spec G Hwf s t Hs Ht)
    as [[E1 Hno1]|(p1 & E1 & Hp1)];
    destruct (bidirectional_shortest_path_spec G Hwf t s Ht Hs)
      as [[E2 Hno2]|(p2 & E2 & Hp2)]; rewrite E1, E2.
  - split; [tauto | discriminate].
  - exfalso. apply Hno1. exists (rev p2). now apply path_between_rev.
  - exfalso. apply Hno2. exists (rev p1). now apply path_between_rev.
  - split; [split; discriminate|].
    intros p p' [= <-] [= <-].
    pose proof (bidirectional_shortest_path_shortest G Hwf s t p1 (rev p2) E1
                  (path_between_rev _ _ _ _ Hwf Hp2)) as H1.
    pose proof (bidirectional_shortest_path_shortest G Hwf t s p2 (rev p1) E2
                  (path_between_rev _ _ _ _ Hwf Hp1)) as H2.
    rewrite length_rev in H1, H2. lia.
Qed.

Lemma X20_direction_does_not_matter_witness :
  nx.well_formed (load_data example_rows 40)
  /\ nx.has_node (load_data example_rows 40) "B" = true
  /\ nx.has_node (load_data example_rows 40) "C" = true
  /\ (shortest_path (load_data example_rows 40) "B" "C" = Returned None
      <-> shortest_path (load_data example_rows 40) "C" "B" = Returned None)
  /\ (forall p p',
        shortest_path (load_data example_rows 40) "B" "C"
        = Returned (Some p) ->
        shortest_path (load_data example_rows 40) "C" "B"
        = Returned (Some p') ->
        List.length p = List.length p').
Proof.
  split; [apply load_data_well_formed|].
  split; [reflexivity|]. split; [reflexivity|].
  apply (X20_direction_does_not_matter (load_data example_rows 40) "B" "C"
           (load_data_well_formed _ _)); reflexivity.
Defined.

(** ** The rankings of a loaded graph *)

Lemma In_slice_to {A : Type} (l : list A) (n : Z) (x : A) :
  In x (slice_to l n) -> In x l.
Proof.
  unfold slice_to. destruct (n <? 0)%Z; apply In_firstn.
Qed.

Lemma In_degree (G : nx.Graph) (c : string) (d : Z) :
  NoDup (keys G) ->
  In (c, d) (nx.degree G) ->
  exists nbrs,
    get G c = Some nbrs
    /\ d = (Z.of_nat (List.length nbrs) + if mem nbrs c then 1 else 0)%Z.
Proof.
  intros Hnd Hin. unfold nx.degree in Hin.
  apply in_map_iff in Hin as ([n nbrs] & [= -> <-] & Hin).
  exists nbrs. split; [now apply In_get | reflexivity].
Qed.

(** X21: on a graph built by [load_data], the number of connections
    that [top_connected_characters] gives for a character is the number of
    co-appearances that [character_stats] gives for it, plus one when a
    kept row pairs the character with itself: the degree counts such an
    edge twice, the neighbours count it once. *)
Theorem X21_degree_and_co_appearances (data : list row) (min_scenes top_n : Z)
    (c : string) (d : Z) :
  In (c, d) (top_connected_characters (load_data data min_scenes) top_n) ->
  exists s,
    character_stats (load_data data min_scenes) c = Returned s
    /\ d = (Z.of_nat (unique_co_appearances s)
            + if nx.has_edge (load_data data min_scenes) c c then 1 else 0)%Z.
Proof.
  intros Hin. unfold top_connected_characters in Hin.
  apply In_slice_to in Hin.
  apply (Permutation_in _ (sorted_desc_perm snd _)) in Hin.
  pose proof (load_data_well_formed data min_scenes) as (Hnd & _ & _).
  apply (In_degree _ _ _ Hnd) in Hin as (nbrs & Hg & ->).
  assert (Hc : nx.has_node (load_data data min_scenes) c = true)
    by (unfold nx.has_node, mem; now rewrite Hg).
  destruct (load_data_no_isolated _ _ _ Hc) as (b & Hb).
  unfold nx.has_edge, nx.edge_weight in *. rewrite Hg in *.
  assert (Hne : nbrs <> []) by (intros ->; discriminate Hb).
  destruct (py_max_spec snd nbrs Hne) as (top & Hm & _).
  unfold character_stats. rewrite Hg, Hm. cbn [bind].
  eexists. split; [reflexivity|]. reflexivity.
Qed.

Lemma X21_degree_and_co_appearances_witness :
  In ("A", 2%Z) (top_connected_characters (load_data example_rows 40) 3)
  /\ exists s,
       character_stats (load_data example_rows 40) "A" = Returned s
       /\ 2%Z = (Z.of_nat (unique_co_appearances s)
                 + if nx.has_edge (load_data example_rows 40) "A" "A"
                   then 1 else 0)%Z.
Proof.
  split; [vm_compute; auto|].
  apply (X21_degree_and_co_appearances example_rows 40 3 "A" 2).
  vm_compute. auto.
Defined.

(** X22: every pair that [top_strongest_pairs] gives for a graph built
    by [load_data] comes with the number of scenes of the last row that
    names the two characters with at least [min_scenes] scenes. *)
Theorem X22_strongest_pairs_of_loaded_graph (data : list row)
    (min_scenes top_n : Z) (u v : string) (w : Z) :
  In ((u, v), w) (top_strongest_pairs (load_data data min_scenes) top_n) ->
  last_kept data min_scenes u v = Some w
  /\ (min_scenes <= w)%Z
  /\ kept data min_scenes u v.
Proof.
  intros Hin. unfold top_strongest_pairs in Hin.
  rewrite map_triple_id in Hin. apply In_slice_to in Hin.
  apply (Permutation_in _ (sorted_desc_perm (fun e => snd e) _)) in Hin.
  apply In_edges_has_edge in Hin; [|apply load_data_well_formed].
  split; [now rewrite <- edge_weight_load_data|]. split.
  - rewrite edge_weight_load_data in Hin. unfold last_kept in Hin.
    apply last_kept_from in Hin as [H|(r & _ & _ & Hm & _)];
      [discriminate H | exact Hm].
  - apply has_edge_load_data. unfold nx.has_edge. now rewrite Hin.
Qed.

Lemma X22_strongest_pairs_of_loaded_graph_witness :
  In (("A", "B"), 60%Z) (top_strongest_pairs (load_data example_rows 40) 1)
  /\ last_kept example_rows 40 "A" "B" = Some 60%Z
  /\ (40 <= 60)%Z
  /\ kept example_rows 40 "A" "B".
Proof.
  split; [vm_compute; auto|].
  apply (X22_strongest_pairs_of_loaded_graph example_rows 40 1 "A" "B" 60).
  vm_compute. auto.
Defined.
